(** * vector_list/bench.cpp: creation policies, operation policies and the trial runner

    A shallow embedding of [src/vector_list/bench.cpp].  A container under
    test ([std::vector<T>], [std::list<T>], [std::deque<T>]) is the sequence
    of its elements; an iterator is the position it designates, [end(c)]
    being the length.  Policies run in a state-and-fault monad over the
    container, the static generator and a record of the container calls
    made.  The C++ standard library is not part of the repository: the
    random facilities and the sorting routines are taken as interfaces
    ([StdRandom], [StdSort]) whose documented contracts appear as explicit
    hypotheses, and are instantiated further down. *)

From Stdlib Require Import String Ascii DecimalString.
From Stdlib Require Import ZArith List Bool Lia Permutation Sorted.
Import ListNotations.
Local Open Scope Z_scope.

Set Implicit Arguments.
Generalizable All Variables.

(** ** Machine integers *)

(** [std::size_t] on the 64-bit targets the benchmark is built for. *)
Definition SIZE_MAX : Z := 2 ^ 64 - 1.
Definition to_size_t (z : Z) : Z := z mod 2 ^ 64.

(** [int], the type of the sizes handed to [bench] and of the counter that
    [std::iota(begin(v), end(v), 0)] increments. *)
Definition INT_MAX : Z := 2 ^ 31 - 1.
Definition to_int (z : Z) : Z := (z + 2 ^ 31) mod 2 ^ 32 - 2 ^ 31.

(** [std::ptrdiff_t]: no container holds more elements than this. *)
Definition PTRDIFF_MAX : Z := 2 ^ 63 - 1.

(** The signed 64-bit representation of [std::chrono] durations. *)
Definition to_int64 (z : Z) : Z := (z + 2 ^ 63) mod 2 ^ 64 - 2 ^ 63.

Definition REPEAT : Z := 5.

(** ** Elements *)

(** What the policies use of an element type [T]: the key member [a], the
    brace initialisation [T{val}] and the value initialisation [T{}].
    Every element type orders by [a < other.a]. *)
Class Element (T : Type) := {
  key : T -> Z;
  brace_init : Z -> T;
  value_init : T;
}.

Definition elt_lt `{Element T} (x other : T) : bool := key x <? key other.

(** [brace_init] stores its argument in the key member. *)
Definition Element_lawful `{Element T} : Prop :=
  forall k, key (brace_init k) = k.

(** [template<int N> struct Trivial { std::size_t a; std::array<unsigned char, N-sizeof(a)> b; }] *)
Module Trivial.
Record t (N : nat) : Type := Build { a : Z; b : list Z }.
Arguments Build {N} _ _.
Arguments a {N} _.
Arguments b {N} _.
End Trivial.

#[export] Instance Trivial_Element (N : nat) : Element (Trivial.t N) := {
  key := Trivial.a;
  brace_init := fun val => Trivial.Build val (repeat 0 (N - 8));
  value_init := Trivial.Build 0 (repeat 0 (N - 8));
}.

Definition Small := Trivial.t 8.
Definition Medium := Trivial.t 32.

(** [class NonTrivialString : Base { std::string data{...}; public: std::size_t a{0}; ... }] *)
Module NonTrivialString.
Record t : Type := Build { data : string; a : Z }.
Definition ctor (a : Z) : t :=
  Build "some pretty long string to make sure it is not optimized with SSO" a.
End NonTrivialString.

#[export] Instance NonTrivialString_Element : Element NonTrivialString.t := {
  key := NonTrivialString.a;
  brace_init := NonTrivialString.ctor;
  value_init := NonTrivialString.ctor 0;
}.

(** ** The standard library, as interfaces *)

(** [<random>] and [std::shuffle].  [URBG] is the state of a [std::mt19937];
    [shuffle l g] is the sequence [std::shuffle] leaves in a range holding
    [l] when driven by [g]; [uniform_int a b g] is one call of a
    [std::uniform_int_distribution<std::size_t>(a, b)] on [g], with the
    generator state it leaves. *)
Class StdRandom := {
  URBG : Type;
  mt19937_default : URBG;
  shuffle : list Z -> URBG -> list Z;
  uniform_int : Z -> Z -> URBG -> Z * URBG;
}.

(** [std::shuffle] permutes the range. *)
Definition shuffle_contract `{StdRandom} : Prop :=
  forall l g, Permutation l (shuffle l g).

(** [uniform_int_distribution<std::size_t>(a, b)] produces [i] with
    [a <= i <= b]. *)
Definition uniform_int_contract `{StdRandom} : Prop :=
  forall lo hi g, 0 <= lo <= hi -> hi <= SIZE_MAX -> lo <= fst (uniform_int lo hi g) <= hi.

(** [std::sort(first, last)] and [std::list<T>::sort()], both ordering by
    [operator<]. *)
Class StdSort (T : Type) := {
  std_sort : list T -> list T;
  list_sort : list T -> list T;
}.

Definition ascending `{Element T} (l : list T) : Prop :=
  Sorted (fun x y => elt_lt y x = false) l.

Definition sort_contract `{Element T} (sort : list T -> list T) : Prop :=
  forall l, Permutation l (sort l) /\ ascending (sort l).

(** ** Containers *)

Inductive ContainerKind := std_vector | std_list | std_deque.

(** The two predicates the scanning policies hand to [std::find_if]:
    [v.a == i] and [v.a >= val]. *)
Inductive Pred := key_eq (i : Z) | key_ge (val : Z).

Definition holds `{Element T} (p : Pred) (v : T) : bool :=
  match p with
  | key_eq i => key v =? i
  | key_ge val => key v >=? val
  end.

(** Position of the first element satisfying [p]; the length when none does. *)
Fixpoint first_match {T} (p : T -> bool) (l : list T) : nat :=
  match l with
  | [] => 0%nat
  | x :: l' => if p x then 0%nat else S (first_match p l')
  end.

Definition insert_before {T} (pos : nat) (x : T) (l : list T) : list T :=
  firstn pos l ++ x :: skipn pos l.

Definition erase_at {T} (pos : nat) (l : list T) : list T :=
  firstn pos l ++ skipn (S pos) l.

(** The calls a policy makes on the container it is given. *)
Inductive Call (T : Type) :=
| call_find_if (p : Pred) (it : nat)
| call_insert (it : nat) (x : T)
| call_erase (it : nat)
| call_remove_erase (p : Pred)
| call_push_back (x : T)
| call_sort.
Arguments call_find_if {T} _ _.
Arguments call_insert {T} _ _.
Arguments call_erase {T} _.
Arguments call_remove_erase {T} _.
Arguments call_push_back {T} _.
Arguments call_sort {T}.

(** What a policy's [run] can read and write: the container passed by
    reference, the static [RandomSortedInsert<Container>::generator], and
    the calls made so far. *)
Record Env (T G : Type) := mkEnv {
  container : list T;
  generator : G;
  calls : list (Call T);
}.
Arguments mkEnv {T G} _ _ _.
Arguments container {T G} _.
Arguments generator {T G} _.
Arguments calls {T G} _.

(** [None] is a call outside the container's contract. *)
Definition M (T G A : Type) : Type := Env T G -> option (A * Env T G).

Definition ret {T G A} (x : A) : M T G A := fun e => Some (x, e).

Definition bind {T G A B} (m : M T G A) (f : A -> M T G B) : M T G B :=
  fun e => match m e with
           | Some (x, e') => f x e'
           | None => None
           end.

Declare Scope policy_scope.
Delimit Scope policy_scope with policy.
Notation "x <- m ;; k" := (bind m (fun x => k))
  (at level 61, m at next level, right associativity) : policy_scope.
Notation "m ;; k" := (bind m (fun _ => k))
  (at level 61, right associativity) : policy_scope.
Local Open Scope policy_scope.

(** [std::find_if(begin(c), end(c), p)] *)
Definition find_if `{Element T} {G} (p : Pred) : M T G nat :=
  fun e => let it := first_match (holds p) (container e) in
           Some (it, mkEnv (container e) (generator e) (calls e ++ [call_find_if p it])).

(** [c.insert(it, x)]: [it] may be any position up to and including [end(c)]. *)
Definition insert {T G} (it : nat) (x : T) : M T G unit :=
  fun e => if (it <=? length (container e))%nat
           then Some (tt, mkEnv (insert_before it x (container e)) (generator e)
                                (calls e ++ [call_insert it x]))
           else None.

(** [c.erase(it)]: [it] must designate an element; [end(c)] does not. *)
Definition erase {T G} (it : nat) : M T G unit :=
  fun e => if (it <? length (container e))%nat
           then Some (tt, mkEnv (erase_at it (container e)) (generator e)
                                (calls e ++ [call_erase (T:=T) it]))
           else None.

(** [c.erase(std::remove_if(begin(c), end(c), p), end(c))] *)
Definition remove_erase `{Element T} {G} (p : Pred) : M T G unit :=
  fun e => Some (tt, mkEnv (filter (fun v => negb (holds p v)) (container e)) (generator e)
                           (calls e ++ [call_remove_erase p])).

(** [c.push_back(x)] *)
Definition push_back {T G} (x : T) : M T G unit :=
  fun e => Some (tt, mkEnv (container e ++ [x]) (generator e)
                           (calls e ++ [call_push_back x])).

(** [for(std::size_t i = from; ...; ++i) body(i)], [n] iterations. *)
Fixpoint for_loop {T G} (n : nat) (i : Z) (body : Z -> M T G unit) : M T G unit :=
  match n with
  | O => ret tt
  | S n' => body i ;; for_loop n' (i + 1) body
  end.

(** [for(std::size_t i=0; i<bound; ++i) body(i)] *)
Definition for_size_t {T G} (bound : Z) (body : Z -> M T G unit) : M T G unit :=
  for_loop (Z.to_nat bound) 0 body.

(** [0, 1, ..., n-1] counted from [from]: the values a loop index takes. *)
Fixpoint zrange (from : Z) (n : nat) : list Z :=
  match n with
  | O => []
  | S n' => from :: zrange (from + 1) n'
  end.

(** ** Create policies *)

Module Empty.
Definition make {T} (size : Z) : list T := [].
End Empty.

Module Filled.
Definition make `{Element T} (size : Z) : list T := repeat value_init (Z.to_nat size).
End Filled.

(** [std::iota(first, last, value)] over [n] slots of [std::size_t], with
    the [int] counter the call in [FilledRandom] gives it. *)
Fixpoint iota (n : nat) (value : Z) : list Z :=
  match n with
  | O => []
  | S n' => to_size_t value :: iota n' (to_int (value + 1))
  end.

Module FilledRandom.
(** "prepare randomized data that will have all the integers from the
    range": the static [v] after the first block of [make]. *)
Definition prepare `{StdRandom} (size : Z) (v : list Z) : list Z :=
  if negb (Z.of_nat (length v) =? size)
  then shuffle (iota (Z.to_nat size) 0) mt19937_default
  else v.

(** What the first block stores when it runs: the shuffle, by a freshly
    default-constructed [std::mt19937], of [size] slots filled by [iota]. *)
Definition permutation `{StdRandom} (size : Z) : list Z :=
  shuffle (iota (Z.to_nat size) 0) mt19937_default.

(** "fill with randomized data" *)
Definition fill `{Element T} (v : list Z) : list T :=
  fold_left (fun c val => c ++ [brace_init val]) v [].

(** [make] reads and writes the static [v]; it returns the container and
    the [v] it leaves. *)
Definition make `{Element T} `{StdRandom} (size : Z) (v : list Z) : list T * list Z :=
  let v' := prepare size v in (fill v', v').

(** The values the static [v] can hold: empty at program start, then
    whatever calls of [make] leave. *)
Inductive reachable `{StdRandom} : list Z -> Prop :=
| reachable_start : reachable []
| reachable_make size v : reachable v -> reachable (prepare size v).

(** The containers a run of calls [make(s1); make(s2); ...] returns. *)
Fixpoint make_all `{Element T} `{StdRandom} (sizes : list Z) (v : list Z) : list (list T) :=
  match sizes with
  | [] => []
  | size :: rest => let '(c, v') := make size v in c :: make_all rest v'
  end.
End FilledRandom.

(** ** Testing policies *)

Module NoOp.
Definition run {T G} (size : Z) : M T G unit := ret tt.
End NoOp.

Module FillBack.
Definition run `{Element T} {G} (size : Z) : M T G unit :=
  for_size_t size (fun _ => push_back value_init).
End FillBack.

Module Find.
Definition body `{Element T} {G} (i : Z) : M T G unit :=
  _ <- find_if (key_eq i) ;;
  ret tt.

Definition run `{Element T} {G} (size : Z) : M T G unit :=
  for_size_t size body.
End Find.

Module Insert.
Definition body `{Element T} {G} (size i : Z) : M T G unit :=
  it <- find_if (key_eq i) ;;
  insert it (brace_init (to_size_t (size + i))).

Definition run `{Element T} {G} (size : Z) : M T G unit :=
  for_size_t 1000 (body size).
End Insert.

Module Erase.
Definition body `{Element T} {G} (i : Z) : M T G unit :=
  it <- find_if (key_eq i) ;;
  erase it.

Definition run `{Element T} {G} (size : Z) : M T G unit :=
  for_size_t 1000 body.
End Erase.

(** A container of [Small] holding the single key 5, with no generator
    and no call made yet. *)
Definition lone_five : Env Small unit := mkEnv [brace_init 5] tt [].

Module RemoveErase.
Definition run `{Element T} {G} (size : Z) : M T G unit :=
  for_size_t 1000 (fun i => remove_erase (key_eq i)).
End RemoveErase.

Module Sort.
(** The primary template calls [std::sort]; the specialisation for
    [std::list<T>] calls the member [sort]. *)
Definition run `{StdSort T} {G} (kind : ContainerKind) (size : Z) : M T G unit :=
  fun e =>
    let sorted := match kind with
                  | std_list => list_sort (container e)
                  | std_vector | std_deque => std_sort (container e)
                  end in
    Some (tt, mkEnv sorted (generator e) (calls e ++ [call_sort])).
End Sort.

Module RandomSortedInsert.
(** The bounds the static [distribution] is constructed with. *)
Definition distribution_a : Z := 0.
Definition distribution_b : Z := SIZE_MAX - 1.

(** [distribution(generator)] *)
Definition draw `{StdRandom} {T} : M T URBG Z :=
  fun e => let '(val, g) := uniform_int distribution_a distribution_b (generator e) in
           Some (val, mkEnv (container e) g (calls e)).

Definition body `{Element T} `{StdRandom} (i : Z) : M T URBG unit :=
  val <- draw ;;
  it <- find_if (key_ge val) ;;
  insert it (brace_init val).

Definition run `{Element T} `{StdRandom} (size : Z) : M T URBG unit :=
  for_size_t size body.
End RandomSortedInsert.

(** ** The variadic policy runner *)

Definition TestPolicy (T G : Type) : Type := Z -> M T G unit.

Fixpoint run {T G} (tests : list (TestPolicy T G)) (size : Z) : M T G unit :=
  match tests with
  | [] => ret tt
  | Test :: Rest => Test size ;; run Rest size
  end.

(** ** The trial runner *)

Inductive DurationUnit := microseconds | milliseconds.

(** What an execution supplies and the program does not determine: the
    reading of each call of [Clock::now()] (in ticks of [Clock::duration],
    numbered in call order), the tick rate of the clock, and the value held
    by each default-initialised [Clock::duration duration;] (numbered by
    the position of the size it is declared for). *)
Record Execution := mkExecution {
  now : nat -> Z;
  ticks_per_microsecond : Z;
  indeterminate : nat -> Z;
}.

(** [std::chrono::duration_cast<DurationUnit>(d).count()]: integer division,
    truncating toward zero. *)
Definition duration_cast (x : Execution) (unit : DurationUnit) (d : Z) : Z :=
  match unit with
  | microseconds => Z.quot d (ticks_per_microsecond x)
  | milliseconds => Z.quot d (1000 * ticks_per_microsecond x)
  end.

(** [std::to_string(size)] for an [int]. *)
Definition to_string (size : Z) : string := NilZero.string_of_int (Z.to_int size).

Record Sample := mkSample {
  series_label : string;
  x_label : string;
  y_value : Z;
}.

(** The state that outlives a trial: the statics of the two policies that
    have some, the number of clock readings taken, and the reporting sink. *)
Record World (G : Type) := mkWorld {
  FilledRandom_v : list Z;
  RandomSortedInsert_generator : G;
  clock_calls : nat;
  results : list Sample;
}.
Arguments mkWorld {G} _ _ _ _.
Arguments FilledRandom_v {G} _.
Arguments RandomSortedInsert_generator {G} _.
Arguments clock_calls {G} _.
Arguments results {G} _.

(** Modelled from the spec: [graphs::new_result] is declared in
    [graphs.hpp], which is not among the sources; per the reporting sink
    interface it records one (series label, x label, y value) sample. *)
Definition new_result {G} (type x : string) (y : Z) (w : World G) : World G :=
  mkWorld (FilledRandom_v w) (RandomSortedInsert_generator w) (clock_calls w)
          (results w ++ [mkSample type x y]).

(** A create policy's [make], with the static [v] it may use threaded. *)
Definition CreatePolicy (T : Type) : Type := Z -> list Z -> list T * list Z.

Definition create_Empty {T} : CreatePolicy T := fun size v => (Empty.make size, v).
Definition create_Filled `{Element T} : CreatePolicy T := fun size v => (Filled.make size, v).
Definition create_FilledRandom `{Element T} `{StdRandom} : CreatePolicy T := FilledRandom.make.

(** One pass of the [REPEAT] loop: make a container, read the clock, run
    the test policies, read the clock, add the difference to [duration]. *)
Definition trial {T G} (x : Execution) (create : CreatePolicy T)
    (tests : list (TestPolicy T G)) (size : Z) (st : World G * Z) : option (World G * Z) :=
  let '(w, duration) := st in
  let '(c, v) := create (to_size_t size) (FilledRandom_v w) in
  let t0 := now x (clock_calls w) in
  match run tests (to_size_t size) (mkEnv c (RandomSortedInsert_generator w) []) with
  | None => None
  | Some (_, e) =>
      let t1 := now x (S (clock_calls w)) in
      Some (mkWorld v (generator e) (S (S (clock_calls w))) (results w),
            to_int64 (duration + to_int64 (t1 - t0)))
  end.

Fixpoint trials {T G} (n : nat) (x : Execution) (create : CreatePolicy T)
    (tests : list (TestPolicy T G)) (size : Z) (st : World G * Z) : option (World G * Z) :=
  match n with
  | O => Some st
  | S n' => match trial x create tests size st with
            | None => None
            | Some st' => trials n' x create tests size st'
            end
  end.

(** The body of [for(auto size : sizes)], for the [k]-th size. *)
Definition bench_size {T G} (x : Execution) (unit : DurationUnit) (create : CreatePolicy T)
    (tests : list (TestPolicy T G)) (type : string) (k : nat) (size : Z)
    (w : World G) : option (World G) :=
  let duration := indeterminate x k in
  match trials (Z.to_nat REPEAT) x create tests size (w, duration) with
  | None => None
  | Some (w', duration') =>
      Some (new_result type (to_string size)
                       (to_size_t (duration_cast x unit duration') / REPEAT) w')
  end.

Fixpoint bench_from {T G} (x : Execution) (unit : DurationUnit) (create : CreatePolicy T)
    (tests : list (TestPolicy T G)) (type : string) (k : nat) (sizes : list Z)
    (w : World G) : option (World G) :=
  match sizes with
  | [] => Some w
  | size :: rest =>
      match bench_size x unit create tests type k size w with
      | None => None
      | Some w' => bench_from x unit create tests type (S k) rest w'
      end
  end.

Definition bench {T G} (x : Execution) (unit : DurationUnit) (create : CreatePolicy T)
    (tests : list (TestPolicy T G)) (type : string) (sizes : list Z)
    (w : World G) : option (World G) :=
  bench_from x unit create tests type 0 sizes w.

(** What the averaging contract asks for: the time accumulated over the
    trials, from a zero total, divided by the repeat count and then
    converted to the declared unit. *)
Definition elapsed (x : Execution) (first_call : nat) (n : nat) : Z :=
  fold_right Z.add 0
    (map (fun i => now x (first_call + 2 * i + 1) - now x (first_call + 2 * i)) (seq 0 n)).

Definition averaged (x : Execution) (unit : DurationUnit) (first_call : nat) : Z :=
  duration_cast x unit (Z.quot (elapsed x first_call (Z.to_nat REPEAT)) REPEAT).

(** An execution on a nanosecond clock in which every clock reading comes
    one millisecond after the previous one, and the storage of [duration]
    still holds, when the variable is declared for the [k]-th size, the
    five milliseconds each earlier size has added to it. *)
Definition stale_execution : Execution :=
  mkExecution (fun k => 1000000 * Z.of_nat k) 1000 (fun k => 5000000 * Z.of_nat k).

(** ** An implementation of the interfaces: GNU libstdc++ 12

    [std::mt19937] as the standard defines it, and [std::shuffle] and
    [std::uniform_int_distribution] as [bits/stl_algo.h] and
    [bits/uniform_int_dist.h] of GCC 12 implement them.  Rejection loops
    run on a budget of retries; a shuffle or draw that exhausts it is
    reported as [None]. *)
Module Libstdcxx.

(** [mersenne_twister_engine<uint_fast32_t, 32, 624, 397, 31, 0x9908b0df,
    11, 0xffffffff, 7, 0x9d2c5680, 15, 0xefc60000, 18, 1812433253>] *)
Record mt19937 := mk_mt19937 { M_x : list Z; M_p : nat }.

(** Values of the engine are [w = 32] bit words. *)
Definition word (z : Z) : Z := z mod 2 ^ 32.

Definition default_seed : Z := 5489.

Fixpoint seed_rest (n : nat) (i : Z) (prev : Z) : list Z :=
  match n with
  | O => []
  | S n' =>
      let x := Z.lxor prev (Z.shiftr prev 30) in
      let x := x * 1812433253 in
      let x := x + i mod 624 in
      word x :: seed_rest n' (i + 1) (word x)
  end.

Definition seed (sd : Z) : mt19937 :=
  mk_mt19937 (word sd :: seed_rest 623 1 (word sd)) 624.

Definition set_nth (k : nat) (v : Z) (l : list Z) : list Z :=
  firstn k l ++ v :: skipn (S k) l.

Definition upper_mask : Z := 0xffffffff80000000.
Definition lower_mask : Z := 0x7fffffff.

(** [_M_x[k] = _M_x[km] ^ (y >> 1) ^ ((y & 1) ? a : 0)] with
    [y = (_M_x[k] & upper_mask) | (_M_x[k1] & lower_mask)]. *)
Definition twist (x : list Z) (k k1 km : nat) : list Z :=
  let y := Z.lor (Z.land (nth k x 0) upper_mask) (Z.land (nth k1 x 0) lower_mask) in
  set_nth k (Z.lxor (Z.lxor (nth km x 0) (Z.shiftr y 1))
                    (if Z.odd y then 0x9908b0df else 0)) x.

Definition M_gen_rand (x : list Z) : list Z :=
  let x := fold_left (fun x k => twist x k (k + 1) (k + 397)) (seq 0 227) x in
  let x := fold_left (fun x k => twist x k (k + 1) (k - 227)) (seq 227 396) x in
  twist x 623 0 396.

(** [operator()] *)
Definition next (g : mt19937) : Z * mt19937 :=
  let g := if (624 <=? M_p g)%nat then mk_mt19937 (M_gen_rand (M_x g)) 0 else g in
  let z := nth (M_p g) (M_x g) 0 in
  let z := Z.lxor z (Z.land (Z.shiftr z 11) 0xffffffff) in
  let z := Z.lxor z (Z.land (Z.shiftl z 7) 0x9d2c5680) in
  let z := Z.lxor z (Z.land (Z.shiftl z 15) 0xefc60000) in
  let z := Z.lxor z (Z.shiftr z 18) in
  (word z, mk_mt19937 (M_x g) (S (M_p g))).

(** [mt19937::max() - mt19937::min()] *)
Definition urngrange : Z := 2 ^ 32 - 1.

(** The [while (__low < __threshold)] loop of [_S_nd]. *)
Fixpoint S_nd_retry (budget : nat) (range threshold product : Z) (g : mt19937)
    : option (Z * mt19937) :=
  if word product <? threshold then
    match budget with
    | O => None
    | S budget' =>
        let '(r, g) := next g in
        S_nd_retry budget' range threshold (r * range) g
    end
  else Some (Z.shiftr product 32, g).

(** Lemire's nearly divisionless algorithm, [_S_nd<uint64_t>(g, range)]. *)
Definition S_nd (budget : nat) (range : Z) (g : mt19937) : option (Z * mt19937) :=
  let '(r, g) := next g in
  let product := r * range in
  if word product <? range
  then S_nd_retry budget range (word (- range) mod range) product g
  else Some (Z.shiftr product 32, g).

(** [uniform_int_distribution::operator()] for a range no wider than the
    generator's: the downscaling branch and the branch of equal ranges. *)
Definition draw_narrow (budget : nat) (urange : Z) (g : mt19937) : option (Z * mt19937) :=
  if urange <? urngrange then S_nd budget (urange + 1) g
  else Some (next g).

(** The [do ... while (__ret > __urange || __ret < __tmp)] loop of the
    upscaling branch. *)
Fixpoint draw_wide (budget : nat) (inner : nat) (urange : Z) (g : mt19937)
    : option (Z * mt19937) :=
  match draw_narrow inner (urange / (urngrange + 1)) g with
  | None => None
  | Some (high, g) =>
      let tmp := to_size_t ((urngrange + 1) * high) in
      let '(low, g) := next g in
      let ret := to_size_t (tmp + low) in
      if (urange <? ret) || (ret <? tmp) then
        match budget with
        | O => None
        | S budget' => draw_wide budget' inner urange g
        end
      else Some (ret, g)
  end.

(** [uniform_int_distribution<unsigned long>(a, b)(g)] *)
Definition draw (budget : nat) (a b : Z) (g : mt19937) : option (Z * mt19937) :=
  let urange := to_size_t (b - a) in
  let ret := if urngrange <? urange then draw_wide budget budget urange g
             else draw_narrow budget urange g in
  match ret with
  | None => None
  | Some (ret, g) => Some (to_size_t (ret + a), g)
  end.

(** [std::iter_swap(first + i, first + j)] *)
Definition iter_swap (i j : nat) (l : list Z) : list Z :=
  match nth_error l i, nth_error l j with
  | Some vi, Some vj => set_nth j vi (set_nth i vj l)
  | _, _ => l
  end.

(** [__gen_two_uniform_ints(b0, b1, g)] *)
Definition gen_two_uniform_ints (budget : nat) (b0 b1 : Z) (g : mt19937)
    : option (Z * Z * mt19937) :=
  match draw budget 0 (b0 * b1 - 1) g with
  | None => None
  | Some (x, g) => Some (x / b1, x mod b1, g)
  end.

(** The loop that swaps two successive elements per distribution call;
    [i] is the position of the first of the pair. *)
Fixpoint shuffle_pairs (budget : nat) (pairs : nat) (i : nat) (l : list Z) (g : mt19937)
    : option (list Z) :=
  match pairs with
  | O => Some l
  | S pairs' =>
      let swap_range := Z.of_nat i + 1 in
      match gen_two_uniform_ints budget swap_range (swap_range + 1) g with
      | None => None
      | Some (first, second, g) =>
          let l := iter_swap i (Z.to_nat first) l in
          let l := iter_swap (S i) (Z.to_nat second) l in
          shuffle_pairs budget pairs' (S (S i)) l g
      end
  end.

(** The loop of one distribution call per element. *)
Fixpoint shuffle_each (budget : nat) (count : nat) (i : nat) (l : list Z) (g : mt19937)
    : option (list Z) :=
  match count with
  | O => Some l
  | S count' =>
      match draw budget 0 (Z.of_nat i) g with
      | None => None
      | Some (pos, g) => shuffle_each budget count' (S i) (iter_swap i (Z.to_nat pos) l) g
      end
  end.

(** [std::shuffle(first, last, g)] on a range holding [l]. *)
Definition shuffle_range (budget : nat) (l : list Z) (g : mt19937) : option (list Z) :=
  match l with
  | [] => Some l
  | _ :: _ =>
      let urange := Z.of_nat (length l) in
      if urange <=? urngrange / urange then
        if Z.even urange then
          match draw budget 0 1 g with
          | None => None
          | Some (pos, g) =>
              shuffle_pairs budget ((length l - 2) / 2) 2 (iter_swap 1 (Z.to_nat pos) l) g
          end
        else shuffle_pairs budget ((length l - 1) / 2) 1 l g
      else shuffle_each budget (length l - 1) 1 l g
  end.

(** Retries allowed to each rejection loop. *)
Definition budget : nat := 64.

Definition shuffle (l : list Z) (g : mt19937) : list Z :=
  match shuffle_range budget l g with
  | Some l' => l'
  | None => l
  end.

Definition uniform_int (a b : Z) (g : mt19937) : Z * mt19937 :=
  match draw budget a b g with
  | Some r => r
  | None => (a, g)
  end.
End Libstdcxx.

#[export] Instance libstdcxx : StdRandom := {
  URBG := Libstdcxx.mt19937;
  mt19937_default := Libstdcxx.seed Libstdcxx.default_seed;
  shuffle := Libstdcxx.shuffle;
  uniform_int := Libstdcxx.uniform_int;
}.

(** A sort that meets the contract of both [std::sort] and
    [std::list<T>::sort]: insertion, comparing with [operator<], of each
    element after the elements it does not precede. *)
Fixpoint insert_sorted `{Element T} (x : T) (l : list T) : list T :=
  match l with
  | [] => [x]
  | y :: l' => if elt_lt x y then x :: l else y :: insert_sorted x l'
  end.

Definition insertion_sort `{Element T} (l : list T) : list T :=
  fold_right insert_sorted [] l.

#[export] Instance insertion_StdSort `{Element T} : StdSort T := {
  std_sort := insertion_sort;
  list_sort := insertion_sort;
}.

(** ** Concrete containers *)

(** An empty [std::vector<Small>] with a freshly constructed static
    generator. *)
Definition empty_vector : Env Small (@URBG libstdcxx) :=
  mkEnv [] mt19937_default [].

(** Three elements, keys 2, 0, 1, in this order. *)
Definition three_keys : Env Small unit :=
  mkEnv [brace_init 2; brace_init 0; brace_init 1] tt [].

(** A container holding each key of [[0, 1000)] and the key 5000. *)
Definition thousand_keys : Env Small unit :=
  mkEnv (brace_init 5000 :: map brace_init (zrange 0 1000)) tt [].

(** ** Graph identifiers *)

(** [std::isalnum(c)] in the "C" locale, the one in force as the program
    never sets another. *)
Definition isalnum (c : ascii) : bool :=
  let n := nat_of_ascii c in
  ((48 <=? n) && (n <=? 57) || (65 <=? n) && (n <=? 90) || (97 <=? n) && (n <=? 122))%nat.

Definition istag (c : ascii) : bool := isalnum c || Ascii.eqb c "_".

(** [std::replace_if(begin(name), end(name), pred, new_value)] *)
Fixpoint replace_if (pred : ascii -> bool) (new_value : ascii) (name : string) : string :=
  match name with
  | EmptyString => EmptyString
  | String c rest =>
      String (if pred c then new_value else c) (replace_if pred new_value rest)
  end.

Definition tag (name : string) : string :=
  replace_if (fun c => negb (istag c)) "_" name.

(** Modelled from the spec: [graphs::new_graph] is declared in
    [graphs.hpp], which is not among the sources; per the reporting sink
    interface it takes the declaration (id, title, unit) of a graph. *)
Record Graph := mkGraph {
  graph_id : string;
  graph_title : string;
  graph_unit : string;
}.

(** [new_graph<T>(testName, unit)]; [type_name] stands for
    [demangle(typeid(T).name())], which the ABI decides. *)
Definition new_graph (type_name testName unit : string) : Graph :=
  let title := (testName ++ " - " ++ type_name)%string in
  mkGraph (tag title) title unit.

(** The characters of a string, in order. *)
Fixpoint chars (s : string) : list ascii :=
  match s with
  | EmptyString => []
  | String c rest => c :: chars rest
  end.

(** ** The other testing policies *)

(** [c.push_front(x)], recorded as the insertion at [begin(c)] it is. *)
Definition push_front {T G} (x : T) : M T G unit :=
  fun e => Some (tt, mkEnv (x :: container e) (generator e)
                           (calls e ++ [call_insert 0 x])).

Module ReserveSize.
(** [c.reserve(size)] changes the capacity, which the sequence of elements
    does not show. *)
Definition run {T G} (size : Z) : M T G unit := ret tt.
End ReserveSize.

Module EmplaceBack.
(** [c.emplace_back()] constructs a value-initialised element in place. *)
Definition run `{Element T} {G} (size : Z) : M T G unit :=
  for_size_t size (fun _ => push_back value_init).
End EmplaceBack.

Module FillFront.
(** The primary template fills through [std::front_inserter], that is
    [push_front]; the specialisation for [std::vector<T>], which has none,
    calls [c.insert(begin(c), value)]. *)
Definition run `{Element T} {G} (kind : ContainerKind) (size : Z) : M T G unit :=
  match kind with
  | std_vector => for_size_t size (fun _ => insert 0 value_init)
  | std_list | std_deque => for_size_t size (fun _ => push_front value_init)
  end.
End FillFront.

Module EmplaceFront.
(** [c.emplace_front()], and [c.emplace(begin(c))] for [std::vector<T>]. *)
Definition run `{Element T} {G} (kind : ContainerKind) (size : Z) : M T G unit :=
  match kind with
  | std_vector => for_size_t size (fun _ => insert 0 value_init)
  | std_list | std_deque => for_size_t size (fun _ => push_front value_init)
  end.
End EmplaceFront.

(** Whether [Erase] and [RemoveErase] take an element with this key out. *)
Definition erased_key (k : Z) : bool := (0 <=? k) && (k <? 1000).

(** An element of key below [n] preceded by the element [Insert] makes
    for that key; any other element alone. *)
Definition with_inserted `{Element T} (size n : Z) (v : T) : list T :=
  if key v <? n then [brace_init (to_size_t (size + key v)); v] else [v].

(** ** Destruction through an owning handle *)

Module SmartFilled.
(** [std::unique_ptr<Container>(new Container(size))]: the handle is
    represented by the elements owned through it. *)
Definition make `{Element T} (size : Z) : list T := Filled.make size.
End SmartFilled.

Module SmartDelete.
(** [c.reset()] destroys the container and its elements: nothing is owned
    through the handle any more. *)
Definition run {T G} (size : Z) : M T G unit :=
  fun e => Some (tt, mkEnv [] (generator e) (calls e)).
End SmartDelete.

(** ** The scenario table *)

Inductive create_policy := use_Empty | use_Filled | use_FilledRandom | use_SmartFilled.

Inductive test_policy :=
| use_NoOp | use_ReserveSize | use_FillBack | use_EmplaceBack | use_FillFront
| use_EmplaceFront | use_Find | use_Insert | use_Erase | use_RemoveErase | use_Sort
| use_SmartDelete | use_RandomSortedInsert.

(** One call [bench<Container, DurationUnit, CreatePolicy, TestPolicy...>(type, sizes)]. *)
Record Scenario := mkScenario {
  series : string;
  kind : ContainerKind;
  duration_unit : DurationUnit;
  create : create_policy;
  tests : list test_policy;
}.

(** One block of [bench<T>()]: the graph it declares, the sizes, the calls. *)
Record Group := mkGroup {
  test_name : string;
  unit_name : string;
  sizes : list Z;
  scenarios : list Scenario;
}.

Definition hundred_thousands : list Z :=
  [100000; 200000; 300000; 400000; 500000; 600000; 700000; 800000; 900000; 1000000].
Definition ten_thousands : list Z :=
  [10000; 20000; 30000; 40000; 50000; 60000; 70000; 80000; 90000; 100000].
Definition thousands : list Z :=
  [1000; 2000; 3000; 4000; 5000; 6000; 7000; 8000; 9000; 10000].

(** The three calls most blocks make, one per container kind. *)
Definition per_kind (unit : DurationUnit) (c : create_policy) (t : list test_policy)
    : list Scenario :=
  [mkScenario "vector" std_vector unit c t;
   mkScenario "list" std_list unit c t;
   mkScenario "deque" std_deque unit c t].

Definition groups : list Group :=
  [mkGroup "fill_back" "us" hundred_thousands
     (mkScenario "vector_pre" std_vector microseconds use_Empty [use_ReserveSize; use_FillBack]
      :: per_kind microseconds use_Empty [use_FillBack]);
   mkGroup "emplace_back" "us" hundred_thousands
     (per_kind microseconds use_Empty [use_EmplaceBack]);
   mkGroup "fill_front" "us" ten_thousands
     (per_kind microseconds use_Empty [use_FillFront]);
   mkGroup "emplace_front" "us" ten_thousands
     (per_kind microseconds use_Empty [use_EmplaceFront]);
   mkGroup "linear_search" "us" thousands
     (per_kind microseconds use_FilledRandom [use_Find]);
   mkGroup "random_insert" "ms" ten_thousands
     (per_kind milliseconds use_FilledRandom [use_Insert]);
   mkGroup "random_remove" "ms" ten_thousands
     [mkScenario "vector" std_vector milliseconds use_FilledRandom [use_Erase];
      mkScenario "vector_rem" std_vector milliseconds use_FilledRandom [use_RemoveErase];
      mkScenario "list" std_list milliseconds use_FilledRandom [use_Erase];
      mkScenario "deque" std_deque milliseconds use_FilledRandom [use_Erase]];
   mkGroup "sort" "ms" hundred_thousands
     (per_kind milliseconds use_FilledRandom [use_Sort]);
   mkGroup "destruction" "us" hundred_thousands
     (per_kind microseconds use_SmartFilled [use_SmartDelete]);
   mkGroup "number_crunching" "ms" ten_thousands
     (per_kind milliseconds use_Empty [use_RandomSortedInsert])].

Definition create_of `{Element T} `{StdRandom} (c : create_policy) : CreatePolicy T :=
  match c with
  | use_Empty => create_Empty
  | use_Filled => create_Filled
  | use_FilledRandom => create_FilledRandom
  | use_SmartFilled => fun size v => (SmartFilled.make size, v)
  end.

Definition test_of `{Element T} `{StdRandom} `{StdSort T} (k : ContainerKind)
    (t : test_policy) : TestPolicy T URBG :=
  match t with
  | use_NoOp => NoOp.run
  | use_ReserveSize => ReserveSize.run
  | use_FillBack => FillBack.run
  | use_EmplaceBack => EmplaceBack.run
  | use_FillFront => FillFront.run k
  | use_EmplaceFront => EmplaceFront.run k
  | use_Find => Find.run
  | use_Insert => Insert.run
  | use_Erase => Erase.run
  | use_RemoveErase => RemoveErase.run
  | use_Sort => Sort.run k
  | use_SmartDelete => SmartDelete.run
  | use_RandomSortedInsert => RandomSortedInsert.run
  end.

(** The state of a run of [bench<T>()]: for each container kind the statics
    [FilledRandom<Container>::v] and [RandomSortedInsert<Container>::generator],
    the number of clock readings taken, the samples recorded and the
    graphs declared. *)
Record Run (G : Type) := mkRun {
  statics : ContainerKind -> list Z * G;
  clock : nat;
  samples : list Sample;
  graphs : list Graph;
}.
Arguments mkRun {G} _ _ _ _.
Arguments statics {G} _ _.
Arguments clock {G} _.
Arguments samples {G} _.
Arguments graphs {G} _.

Definition same_kind (k1 k2 : ContainerKind) : bool :=
  match k1, k2 with
  | std_vector, std_vector | std_list, std_list | std_deque, std_deque => true
  | _, _ => false
  end.

Definition set_statics {G} (f : ContainerKind -> list Z * G) (k : ContainerKind)
    (s : list Z * G) : ContainerKind -> list Z * G :=
  fun k' => if same_kind k k' then s else f k'.

(** One call of [bench] of the table, on the statics of its container kind. *)
Definition bench_scenario `{Element T} `{StdRandom} `{StdSort T} (x : Execution)
    (sizes : list Z) (s : Scenario) (r : Run URBG) : option (Run URBG) :=
  let '(v, g) := statics r (kind s) in
  match bench x (duration_unit s) (create_of (create s)) (map (test_of (kind s)) (tests s))
              (series s) sizes (mkWorld v g (clock r) (samples r)) with
  | None => None
  | Some w =>
      Some (mkRun (set_statics (statics r) (kind s)
                               (FilledRandom_v w, RandomSortedInsert_generator w))
                  (clock_calls w) (results w) (graphs r))
  end.

Fixpoint bench_scenarios `{Element T} `{StdRandom} `{StdSort T} (x : Execution)
    (sizes : list Z) (l : list Scenario) (r : Run URBG) : option (Run URBG) :=
  match l with
  | [] => Some r
  | s :: l' =>
      match bench_scenario x sizes s r with
      | None => None
      | Some r' => bench_scenarios x sizes l' r'
      end
  end.

(** One block: declare the graph, then make the calls. *)
Definition bench_group `{Element T} `{StdRandom} `{StdSort T} (x : Execution)
    (type_name : string) (grp : Group) (r : Run URBG) : option (Run URBG) :=
  let r := mkRun (statics r) (clock r) (samples r)
                 (graphs r ++ [new_graph type_name (test_name grp) (unit_name grp)]) in
  bench_scenarios x (sizes grp) (scenarios grp) r.

Fixpoint bench_groups `{Element T} `{StdRandom} `{StdSort T} (x : Execution)
    (type_name : string) (l : list Group) (r : Run URBG) : option (Run URBG) :=
  match l with
  | [] => Some r
  | grp :: l' =>
      match bench_group x type_name grp r with
      | None => None
      | Some r' => bench_groups x type_name l' r'
      end
  end.

(** [bench<T>()] *)
Definition bench_type `{Element T} `{StdRandom} `{StdSort T} (x : Execution)
    (type_name : string) (r : Run URBG) : option (Run URBG) :=
  bench_groups x type_name groups r.

(** The unit a graph is declared with, by the unit the samples are cast to. *)
Definition unit_label (unit : DurationUnit) : string :=
  match unit with
  | microseconds => "us"
  | milliseconds => "ms"
  end.

(** Whether a call of the table runs [Erase] only on containers of
    [FilledRandom] with all the keys it looks for. *)
Definition is_Erase (t : test_policy) : bool :=
  match t with use_Erase => true | _ => false end.

Definition is_FilledRandom (c : create_policy) : bool :=
  match c with use_FilledRandom => true | _ => false end.

Definition only_Erase (l : list test_policy) : bool :=
  match l with
  | [t] => is_Erase t
  | _ => false
  end.

Definition scenario_ok (sizes : list Z) (s : Scenario) : bool :=
  forallb (fun size => (0 <=? size) && (size <=? INT_MAX)) sizes &&
  (negb (existsb is_Erase (tests s)) ||
   only_Erase (tests s) && is_FilledRandom (create s) &&
   forallb (fun size => 1000 <=? size) sizes).

(** The number of samples a run of the table records. *)
Definition samples_of (l : list Group) : nat :=
  fold_right (fun grp n => (length (sizes grp) * length (scenarios grp) + n)%nat) 0%nat l.

(** The samples the averaging contract describes for a call of [bench]
    that takes its first clock reading as reading number [first_call]. *)
Fixpoint averages (x : Execution) (unit : DurationUnit) (type : string)
    (first_call : nat) (sizes : list Z) : list Sample :=
  match sizes with
  | [] => []
  | size :: rest =>
      mkSample type (to_string size) (averaged x unit first_call)
      :: averages x unit type (first_call + 10) rest
  end.

(** An execution on a nanosecond clock in which every clock reading comes
    one millisecond after the previous one (until the clock stops, far
    from the end of its range) and the storage of each [duration] holds
    zero when the variable is declared. *)
Definition steady_execution : Execution :=
  mkExecution (fun k => Z.min (1000000 * Z.of_nat k) (2 ^ 59)) 1000 (fun _ => 0).

(** The start of a run of [bench<Small>()]: empty statics [v], freshly
    constructed generators, nothing read or recorded. *)
Definition fresh_run : Run (@URBG libstdcxx) :=
  mkRun (fun _ => ([], mt19937_default)) 0 [] [].

(** * The implementation meets the contracts *)

Module LibstdcxxFacts.
Import Libstdcxx.

Lemma set_nth_length k v l : (k < length l)%nat -> length (set_nth k v l) = length l.
Proof.
  intros Hk. unfold set_nth.
  rewrite length_app, length_firstn. cbn [length]. rewrite length_skipn. lia.
Qed.

Lemma nth_set_nth l : forall k j v,
  (k < length l)%nat ->
  nth j (set_nth k v l) 0 = if (j =? k)%nat then v else nth j l 0.
Proof.
  unfold set_nth.
  induction l as [| y l IH]; intros k j v Hk; [simpl in Hk; lia |].
  destruct k as [| k]; destruct j as [| j]; try reflexivity.
  simpl in Hk. change (nth j (firstn k l ++ v :: skipn (S k) l) 0
                       = if (j =? k)%nat then v else nth j l 0).
  apply IH. lia.
Qed.

Lemma set_nth_count x l : forall k v,
  (k < length l)%nat ->
  (count_occ Z.eq_dec (set_nth k v l) x + (if Z.eq_dec (nth k l 0%Z) x then 1 else 0) =
   count_occ Z.eq_dec l x + (if Z.eq_dec v x then 1 else 0))%nat.
Proof.
  unfold set_nth.
  induction l as [| y l IH]; intros k v Hk; [simpl in Hk; lia |].
  destruct k as [| k].
  - cbn [firstn skipn app nth count_occ].
    destruct (Z.eq_dec v x), (Z.eq_dec y x); lia.
  - simpl in Hk. specialize (IH k v ltac:(lia)).
    change (count_occ Z.eq_dec (y :: firstn k l ++ v :: skipn (S k) l) x
            + (if Z.eq_dec (nth k l 0%Z) x then 1 else 0)
            = count_occ Z.eq_dec (y :: l) x + (if Z.eq_dec v x then 1 else 0))%nat.
    cbn [count_occ]. destruct (Z.eq_dec y x); lia.
Qed.

Lemma iter_swap_Permutation i j l : Permutation l (iter_swap i j l).
Proof.
  unfold iter_swap.
  destruct (nth_error l i) as [vi |] eqn:Ei; [| apply Permutation_refl].
  destruct (nth_error l j) as [vj |] eqn:Ej; [| apply Permutation_refl].
  assert (Hi : (i < length l)%nat) by (apply nth_error_Some; congruence).
  assert (Hj : (j < length l)%nat) by (apply nth_error_Some; congruence).
  apply (nth_error_nth _ _ 0) in Ei. apply (nth_error_nth _ _ 0) in Ej.
  apply (Permutation_count_occ Z.eq_dec). intros x.
  pose proof (set_nth_count x l vj Hi) as H1.
  pose proof (@set_nth_count x (set_nth i vj l) j vi) as H2.
  rewrite set_nth_length in H2 by assumption. specialize (H2 Hj).
  rewrite nth_set_nth in H2 by assumption.
  rewrite Ei in H1.
  destruct (Nat.eqb_spec j i) as [-> | _]; [| rewrite Ej in H2]; lia.
Qed.

Lemma shuffle_pairs_Permutation fuel pairs : forall i l g l',
  shuffle_pairs fuel pairs i l g = Some l' -> Permutation l l'.
Proof.
  induction pairs as [| pairs IH]; intros i l g l' Hrun.
  - injection Hrun as <-. apply Permutation_refl.
  - cbn [shuffle_pairs] in Hrun.
    destruct (gen_two_uniform_ints _ _ _ g) as [[[first second] g'] |]; [| discriminate].
    apply IH in Hrun.
    etransitivity; [apply iter_swap_Permutation |].
    etransitivity; [apply iter_swap_Permutation | exact Hrun].
Qed.

Lemma shuffle_each_Permutation fuel count : forall i l g l',
  shuffle_each fuel count i l g = Some l' -> Permutation l l'.
Proof.
  induction count as [| count IH]; intros i l g l' Hrun.
  - injection Hrun as <-. apply Permutation_refl.
  - cbn [shuffle_each] in Hrun.
    destruct (draw _ _ _ g) as [[pos g'] |]; [| discriminate].
    apply IH in Hrun.
    etransitivity; [apply iter_swap_Permutation | exact Hrun].
Qed.

Lemma shuffle_range_Permutation fuel l g l' :
  shuffle_range fuel l g = Some l' -> Permutation l l'.
Proof.
  unfold shuffle_range. destruct l as [| y l]; [intros [= <-]; constructor |].
  destruct (_ <=? _).
  - destruct (Z.even _).
    + destruct (draw _ _ _ g) as [[pos g'] |]; [| discriminate].
      intros Hrun. apply shuffle_pairs_Permutation in Hrun.
      etransitivity; [apply iter_swap_Permutation | exact Hrun].
    + apply shuffle_pairs_Permutation.
  - apply shuffle_each_Permutation.
Qed.

(** [std::shuffle] of libstdc++ permutes the range. *)
Lemma shuffle_meets_contract : @shuffle_contract libstdcxx.
Proof.
  intros l g. cbn. unfold shuffle.
  destruct (shuffle_range budget l g) as [l' |] eqn:E.
  - eapply shuffle_range_Permutation; exact E.
  - apply Permutation_refl.
Qed.

Lemma word_range z : 0 <= word z < 2 ^ 32.
Proof. unfold word. apply Z.mod_pos_bound. lia. Qed.

Lemma next_range g : 0 <= fst (next g) < 2 ^ 32.
Proof. unfold next. cbn [fst]. apply word_range. Qed.

Lemma shiftr_32_range product range :
  0 < range -> 0 <= product < 2 ^ 32 * range -> 0 <= Z.shiftr product 32 < range.
Proof.
  intros Hr Hp. rewrite Z.shiftr_div_pow2 by lia. split.
  - apply Z.div_pos; lia.
  - apply Z.div_lt_upper_bound; lia.
Qed.

Lemma product_range r range :
  0 <= r < 2 ^ 32 -> 0 < range -> 0 <= r * range < 2 ^ 32 * range.
Proof.
  intros Hr Hrange. split.
  - apply Z.mul_nonneg_nonneg; lia.
  - apply Z.mul_lt_mono_pos_r; lia.
Qed.

Lemma S_nd_retry_range fuel range threshold : forall product g ret g',
  0 < range -> 0 <= product < 2 ^ 32 * range ->
  S_nd_retry fuel range threshold product g = Some (ret, g') ->
  0 <= ret < range.
Proof.
  induction fuel as [| fuel IH]; intros product g ret g' Hr Hp Hrun; cbn [S_nd_retry] in Hrun.
  - destruct (_ <? _); [discriminate |]. injection Hrun as <- <-.
    apply shiftr_32_range; assumption.
  - destruct (_ <? _).
    + pose proof (next_range g) as Hn. destruct (next g) as [r g1]. cbn [fst] in Hn.
      eapply IH; [exact Hr | | exact Hrun]. apply product_range; assumption.
    + injection Hrun as <- <-. apply shiftr_32_range; assumption.
Qed.

Lemma S_nd_eq fuel range g :
  S_nd fuel range g =
    let '(r, g) := next g in
    let product := r * range in
    if word product <? range
    then S_nd_retry fuel range (word (- range) mod range) product g
    else Some (Z.shiftr product 32, g).
Proof. reflexivity. Qed.

Lemma S_nd_range fuel range g ret g' :
  0 < range -> S_nd fuel range g = Some (ret, g') -> 0 <= ret < range.
Proof.
  intros Hr Hrun. rewrite S_nd_eq in Hrun.
  pose proof (next_range g) as Hn.
  destruct (next g) as [r g1]. cbn [fst] in Hn.
  pose proof (product_range Hn Hr) as Hp.
  cbv zeta in Hrun.
  destruct (word (r * range) <? range).
  - eapply S_nd_retry_range; [exact Hr | exact Hp | exact Hrun].
  - injection Hrun as <- <-. apply shiftr_32_range; assumption.
Qed.

Lemma draw_narrow_range fuel urange g ret g' :
  0 <= urange <= urngrange ->
  draw_narrow fuel urange g = Some (ret, g') -> 0 <= ret <= urange.
Proof.
  unfold urngrange. intros Hu Hrun. unfold draw_narrow in Hrun.
  destruct (Z.ltb_spec urange urngrange) as [Hlt | Hge].
  - apply S_nd_range in Hrun; lia.
  - pose proof (next_range g) as Hn. destruct (next g) as [r g1].
    injection Hrun as <- <-. cbn [fst] in Hn. unfold urngrange in Hge. lia.
Qed.

Lemma draw_wide_range fuel inner urange : forall g ret g',
  draw_wide fuel inner urange g = Some (ret, g') -> 0 <= ret <= urange.
Proof.
  induction fuel as [| fuel IH]; intros g ret g' Hrun; cbn [draw_wide] in Hrun;
    destruct (draw_narrow _ _ g) as [[high g1] |]; try discriminate;
    destruct (next g1) as [low g2];
    match type of Hrun with context [Z.ltb urange ?r] =>
      destruct (Z.ltb_spec urange r) as [Hlt | Hge] end;
    cbn [orb] in Hrun; try discriminate.
  - destruct (_ <? _); [discriminate |]. injection Hrun as <- <-.
    split; [apply Z.mod_pos_bound; lia | exact Hge].
  - eapply IH; exact Hrun.
  - destruct (_ <? _); [eapply IH; exact Hrun |]. injection Hrun as <- <-.
    split; [apply Z.mod_pos_bound; lia | exact Hge].
Qed.

Lemma draw_range fuel a b g ret g' :
  0 <= a <= b -> b <= SIZE_MAX ->
  draw fuel a b g = Some (ret, g') -> a <= ret <= b.
Proof.
  unfold SIZE_MAX. intros Hab Hb Hrun. unfold draw in Hrun.
  assert (Eu : to_size_t (b - a) = b - a) by (apply Z.mod_small; lia).
  rewrite Eu in Hrun.
  assert (Hret : forall r g1,
             (if urngrange <? b - a then draw_wide fuel fuel (b - a) g
              else draw_narrow fuel (b - a) g) = Some (r, g1) -> 0 <= r <= b - a).
  { intros r g1. destruct (Z.ltb_spec urngrange (b - a)).
    - apply draw_wide_range.
    - apply draw_narrow_range. lia. }
  destruct (if urngrange <? b - a then _ else _) as [[r g1] |]; [| discriminate].
  specialize (Hret r g1 eq_refl). injection Hrun as <- <-.
  unfold to_size_t. rewrite Z.mod_small; lia.
Qed.

(** [uniform_int_distribution] of libstdc++ stays within its bounds. *)
Lemma uniform_int_meets_contract : @uniform_int_contract libstdcxx.
Proof.
  intros lo hi g Hlo Hhi. cbn. unfold uniform_int.
  destruct (draw budget lo hi g) as [[ret g'] |] eqn:E.
  - cbn [fst]. eapply draw_range; eassumption.
  - cbn [fst]. lia.
Qed.
End LibstdcxxFacts.

Section InsertionSortFacts.
Context `{Element T}.

Lemma insert_sorted_Permutation (x : T) l : Permutation (x :: l) (insert_sorted x l).
Proof.
  induction l as [| y l IH]; simpl; [apply Permutation_refl |].
  destruct (elt_lt x y); [apply Permutation_refl |].
  etransitivity; [apply perm_swap |]. constructor. exact IH.
Qed.

Lemma insert_sorted_ascending (x : T) l : ascending l -> ascending (insert_sorted x l).
Proof.
  unfold ascending.
  induction l as [| y l IH]; intros Hs; simpl; [repeat constructor |].
  destruct (elt_lt x y) eqn:E.
  - constructor; [exact Hs |]. constructor.
    unfold elt_lt in *. apply Z.ltb_ge. apply Z.ltb_lt in E. lia.
  - inversion Hs as [| ? ? Hs' Hhd]; subst. constructor; [apply IH, Hs' |].
    destruct l as [| z l]; simpl.
    + constructor. exact E.
    + destruct (elt_lt x z); constructor; [exact E |].
      inversion Hhd; subst. assumption.
Qed.

Lemma insertion_sort_meets_contract : sort_contract (T:=T) insertion_sort.
Proof.
  intros l. unfold insertion_sort. induction l as [| x l [IHp IHs]]; simpl.
  - split; constructor.
  - split.
    + etransitivity; [apply perm_skip, IHp | apply insert_sorted_Permutation].
    + apply insert_sorted_ascending, IHs.
Qed.
End InsertionSortFacts.

(** * Properties *)

(** ** Positions, insertion and erasure *)

Lemma first_match_le {T} (p : T -> bool) (l : list T) :
  (first_match p l <= length l)%nat.
Proof.
  induction l as [| x l IH]; simpl; [lia |].
  destruct (p x); lia.
Qed.

Lemma first_match_prefix {T} (p : T -> bool) (l : list T) :
  Forall (fun x => p x = false) (firstn (first_match p l) l).
Proof.
  induction l as [| x l IH]; simpl; [constructor |].
  destruct (p x) eqn:E; simpl; [constructor |].
  constructor; assumption.
Qed.

Lemma first_match_suffix {T} (p : T -> bool) (l : list T) :
  match skipn (first_match p l) l with
  | [] => first_match p l = length l
  | x :: _ => p x = true
  end.
Proof.
  induction l as [| x l IH]; simpl; [reflexivity |].
  destruct (p x) eqn:E; simpl; [assumption |].
  destruct (skipn (first_match p l) l); [f_equal |]; assumption.
Qed.

Lemma first_match_found {T} (p : T -> bool) (l : list T) :
  (first_match p l < length l)%nat <-> exists x, In x l /\ p x = true.
Proof.
  induction l as [| x l IH]; simpl.
  - split; [lia | intros (x & [] & _)].
  - destruct (p x) eqn:E.
    + split; [intros _; exists x; auto | lia].
    + rewrite <- Nat.succ_lt_mono, IH. split.
      * intros (y & Hy & Hp). exists y; auto.
      * intros (y & [-> | Hy] & Hp); [congruence | exists y; auto].
Qed.

Lemma first_match_none {T} (p : T -> bool) (l : list T) :
  first_match p l = length l <-> Forall (fun x => p x = false) l.
Proof.
  split.
  - intros E. pose proof (first_match_prefix p l) as H.
    rewrite E, firstn_all in H. exact H.
  - intros H. pose proof (first_match_le p l) as Hle.
    destruct (Nat.eq_dec (first_match p l) (length l)) as [|Hne]; [assumption |].
    assert (Hlt : (first_match p l < length l)%nat) by lia.
    apply first_match_found in Hlt. destruct Hlt as (x & Hin & Hp).
    rewrite Forall_forall in H. specialize (H x Hin). congruence.
Qed.

Lemma insert_before_length {T} pos (x : T) l :
  length (insert_before pos x l) = S (length l).
Proof.
  unfold insert_before. rewrite length_app. simpl.
  rewrite Nat.add_succ_r, <- length_app, firstn_skipn. reflexivity.
Qed.

Lemma insert_before_Permutation {T} pos (x : T) l :
  Permutation (insert_before pos x l) (x :: l).
Proof.
  unfold insert_before. symmetry.
  rewrite <- (firstn_skipn pos l) at 1. apply Permutation_middle.
Qed.

Lemma erase_at_length {T} pos (l : list T) :
  (pos < length l)%nat -> S (length (erase_at pos l)) = length l.
Proof.
  intros H. unfold erase_at.
  rewrite length_app, length_firstn, length_skipn. lia.
Qed.

Lemma erase_at_Permutation {T} pos (l : list T) x rest :
  skipn pos l = x :: rest -> Permutation l (x :: erase_at pos l).
Proof.
  intros E. unfold erase_at.
  rewrite <- (firstn_skipn pos l) at 1. rewrite E.
  replace (skipn (S pos) l) with rest.
  - symmetry. apply Permutation_middle.
  - change (S pos) with (1 + pos)%nat. rewrite <- skipn_skipn, E. reflexivity.
Qed.

Lemma zrange_length from n : length (zrange from n) = n.
Proof. revert from. induction n; intros; simpl; auto. Qed.

Lemma zrange_In from n k : In k (zrange from n) <-> from <= k < from + Z.of_nat n.
Proof.
  revert from. induction n as [| n IH]; intros from.
  - simpl. lia.
  - cbn [zrange In]. rewrite IH. lia.
Qed.

Lemma zrange_NoDup from n : NoDup (zrange from n).
Proof.
  revert from. induction n as [| n IH]; intros from; simpl; constructor.
  - rewrite zrange_In. lia.
  - apply IH.
Qed.

Lemma zrange_snoc from n : zrange from (S n) = zrange from n ++ [from + Z.of_nat n].
Proof.
  revert from. induction n as [| n IH]; intros from.
  - simpl. f_equal. lia.
  - change (zrange from (S (S n))) with (from :: zrange (from + 1) (S n)).
    rewrite IH. simpl. do 3 f_equal. lia.
Qed.

(** ** Find *)

Section FindFacts.
Context `{Element T} {G : Type}.

Definition scan_call (c : list T) (i : Z) : Call T :=
  call_find_if (key_eq i) (first_match (holds (key_eq i)) c).

Lemma Find_body_spec i (e : Env T G) :
  Find.body i e =
  Some (tt, mkEnv (container e) (generator e) (calls e ++ [scan_call (container e) i])).
Proof. reflexivity. Qed.

Lemma Find_loop n : forall i (e : Env T G),
  for_loop n i Find.body e =
  Some (tt, mkEnv (container e) (generator e)
                  (calls e ++ map (scan_call (container e)) (zrange i n))).
Proof.
  induction n as [| n IH]; intros i e.
  - simpl. rewrite app_nil_r. destruct e; reflexivity.
  - cbn [for_loop]. unfold bind at 1. rewrite Find_body_spec, IH. simpl.
    rewrite <- app_assoc. reflexivity.
Qed.
End FindFacts.

(** C9.  [Find::run] makes [size] calls of [find_if], the [i]-th scanning
    for key [i] from the start of the container, uses none of the results,
    and returns with the container (its length and its element sequence)
    and the generator as they were. *)
Theorem Find_run_frame `{Element T} {G : Type} (size : Z) (e : Env T G) :
  exists e',
    Find.run size e = Some (tt, e') /\
    container e' = container e /\
    length (container e') = length (container e) /\
    generator e' = generator e /\
    calls e' = calls e ++ map (scan_call (container e)) (zrange 0 (Z.to_nat size)) /\
    length (map (scan_call (container e)) (zrange 0 (Z.to_nat size))) = Z.to_nat size.
Proof.
  eexists. split; [apply Find_loop |]. simpl.
  rewrite length_map, zrange_length. repeat split.
Qed.

(** ** Insert *)

Section InsertFacts.
Context `{Element T} {G : Type}.
Variable size : Z.

(** The element the [i]-th pass of [Insert] constructs. *)
Definition inserted (i : Z) : T := brace_init (to_size_t (size + i)).

Lemma Insert_body_spec i (e : Env T G) :
  let it := first_match (holds (key_eq i)) (container e) in
  Insert.body size i e =
  Some (tt, mkEnv (insert_before it (inserted i) (container e)) (generator e)
                  ((calls e ++ [call_find_if (key_eq i) it]) ++ [call_insert it (inserted i)])).
Proof.
  intros it. unfold Insert.body, bind, find_if, insert. cbn [container generator calls].
  fold it. pose proof (first_match_le (holds (key_eq i)) (container e)) as Hle. fold it in Hle.
  apply Nat.leb_le in Hle. rewrite Hle. reflexivity.
Qed.

Lemma Insert_loop n : forall i (e : Env T G),
  exists e',
    for_loop n i (Insert.body size) e = Some (tt, e') /\
    generator e' = generator e /\
    length (container e') = (n + length (container e))%nat /\
    Permutation (container e') (map inserted (zrange i n) ++ container e).
Proof.
  induction n as [| n IH]; intros i e.
  - exists e. repeat split. apply Permutation_refl.
  - cbn [for_loop]. unfold bind at 1. rewrite Insert_body_spec.
    match goal with |- context [for_loop n (i + 1) _ ?e1] =>
      destruct (IH (i + 1) e1) as (e' & Hrun & Hg & Hlen & Hperm) end.
    exists e'. cbn [container generator] in *.
    rewrite insert_before_length in Hlen.
    repeat split; [assumption | assumption | lia |].
    cbn [zrange map app].
    etransitivity; [exact Hperm |].
    etransitivity; [apply Permutation_app_head, insert_before_Permutation |].
    symmetry. apply Permutation_middle.
Qed.
End InsertFacts.

(** C5.  Each pass of [Insert] splits the container at the first element
    with key [i] (or at its end) and puts a new element built from key
    [size + i] exactly there.  Run on a container of [size] elements, the
    policy returns a container of [size + 1000] elements made of the
    original ones and the 1000 new ones, whose keys are [size + i] for [i]
    in [[0, 1000)]. *)
Theorem Insert_run_spec `{Element T} {G : Type} (size : Z) (e : Env T G) :
  Element_lawful ->
  Z.of_nat (length (container e)) = size ->
  size <= PTRDIFF_MAX ->
  (forall i (e0 : Env T G),
      exists prefix suffix e1,
        container e0 = prefix ++ suffix /\
        Forall (fun v => key v <> i) prefix /\
        (suffix = [] \/ exists v rest, suffix = v :: rest /\ key v = i) /\
        Insert.body size i e0 = Some (tt, e1) /\
        container e1 = prefix ++ inserted size i :: suffix) /\
  exists e',
    Insert.run size e = Some (tt, e') /\
    Z.of_nat (length (container e')) = size + 1000 /\
    Permutation (container e') (map (inserted size) (zrange 0 1000) ++ container e) /\
    map key (map (inserted size) (zrange 0 1000)) = map (fun i => size + i) (zrange 0 1000).
Proof.
  intros Hlaw Hsize Hmax. split.
  - intros i e0.
    set (it := first_match (holds (key_eq i)) (container e0)).
    exists (firstn it (container e0)), (skipn it (container e0)). eexists.
    split; [symmetry; apply firstn_skipn |].
    split.
    { eapply Forall_impl; [| apply first_match_prefix].
      cbn. intros v Hv. apply Z.eqb_neq. exact Hv. }
    split.
    { pose proof (first_match_suffix (holds (key_eq i)) (container e0)) as Hs.
      fold it in Hs. destruct (skipn it (container e0)) as [| v rest]; [left; reflexivity |].
      right. exists v, rest. split; [reflexivity |]. apply Z.eqb_eq. exact Hs. }
    split; [apply Insert_body_spec | reflexivity].
  - destruct (Insert_loop size (Z.to_nat 1000) 0 e) as (e' & Hrun & _ & Hlen & Hperm).
    exists e'. split; [exact Hrun |].
    split; [lia |].
    split; [exact Hperm |].
    rewrite map_map. apply map_ext_in. intros i Hi.
    apply zrange_In in Hi. unfold inserted. rewrite Hlaw.
    unfold to_size_t. apply Z.mod_small. unfold PTRDIFF_MAX in Hmax. lia.
Qed.

(** ** Erase *)

Section EraseFacts.
Context `{Element T} {G : Type}.

Lemma Erase_body_found i (e : Env T G) :
  let it := first_match (holds (key_eq i)) (container e) in
  (it < length (container e))%nat ->
  Erase.body i e =
  Some (tt, mkEnv (erase_at it (container e)) (generator e)
                  ((calls e ++ [call_find_if (key_eq i) it]) ++ [call_erase it])).
Proof.
  intros it Hlt. unfold Erase.body, bind, find_if, erase. cbn [container generator calls].
  fold it. apply Nat.ltb_lt in Hlt. rewrite Hlt. reflexivity.
Qed.

Lemma Erase_body_missing i (e : Env T G) :
  first_match (holds (key_eq i)) (container e) = length (container e) ->
  Erase.body i e = None.
Proof.
  intros E. unfold Erase.body, bind, find_if, erase. cbn [container generator calls].
  rewrite E, Nat.ltb_irrefl. reflexivity.
Qed.

Lemma key_eq_found i (c : list T) :
  (first_match (holds (key_eq i)) c < length c)%nat <-> exists x, In x c /\ key x = i.
Proof.
  rewrite first_match_found. split; intros (x & Hin & Hx); exists x; split; auto;
    cbn in *; apply Z.eqb_eq; assumption.
Qed.

Lemma key_eq_missing i (c : list T) :
  first_match (holds (key_eq i)) c = length c <-> Forall (fun v => key v <> i) c.
Proof.
  rewrite first_match_none. split; apply Forall_impl; cbn; intros v Hv;
    apply Z.eqb_neq; assumption.
Qed.

Lemma erase_at_first_match i (c : list T) :
  (first_match (holds (key_eq i)) c < length c)%nat ->
  exists x, key x = i /\ Permutation c (x :: erase_at (first_match (holds (key_eq i)) c) c).
Proof.
  intros Hlt.
  pose proof (first_match_suffix (holds (key_eq i)) c) as Hs.
  destruct (skipn (first_match (holds (key_eq i)) c) c) as [| x rest] eqn:E; [lia |].
  exists x. split; [apply Z.eqb_eq; exact Hs |].
  eapply erase_at_Permutation; eassumption.
Qed.

Lemma erase_at_incl pos (c : list T) x : In x (erase_at pos c) -> In x c.
Proof.
  unfold erase_at. intros Hin. apply in_app_or in Hin.
  rewrite <- (firstn_skipn pos c). apply in_or_app.
  destruct Hin as [Hin | Hin]; [left; assumption | right].
  change (S pos) with (1 + pos)%nat in Hin. rewrite <- skipn_skipn in Hin.
  destruct (skipn pos c); [destruct Hin | right; exact Hin].
Qed.

(** Every key in [[i, i + n)] is the key of some element. *)
Definition holds_keys (c : list T) (i : Z) (n : nat) : Prop :=
  forall k, i <= k < i + Z.of_nat n -> exists x, In x c /\ key x = k.

Lemma Erase_loop_ok n : forall i (e : Env T G),
  holds_keys (container e) i n ->
  exists e' removed,
    for_loop n i Erase.body e = Some (tt, e') /\
    generator e' = generator e /\
    (length (container e') + n = length (container e))%nat /\
    Permutation (container e) (removed ++ container e') /\
    map key removed = zrange i n.
Proof.
  induction n as [| n IH]; intros i e Hk.
  - exists e, []. repeat split; [lia | apply Permutation_refl].
  - assert (Hlt : (first_match (holds (key_eq i)) (container e) < length (container e))%nat).
    { apply key_eq_found, Hk. lia. }
    cbn [for_loop]. unfold bind at 1. rewrite (Erase_body_found i e Hlt).
    destruct (erase_at_first_match i (container e) Hlt) as (x & Hx & Hperm).
    match goal with |- context [for_loop n (i + 1) _ ?e1] =>
      destruct (IH (i + 1) e1) as (e' & removed & Hrun & Hg & Hlen & Hp' & Hkeys) end.
    { cbn [container]. intros k Hkr. destruct (Hk k) as (y & Hy & Hyk); [lia |].
      exists y. split; [| assumption].
      eapply Permutation_in in Hy; [| exact Hperm].
      destruct Hy as [<- | Hy]; [lia | exact Hy]. }
    cbn [container generator] in *.
    exists e', (x :: removed). split; [exact Hrun |]. split; [exact Hg |].
    pose proof (erase_at_length (container e) Hlt). split; [lia |]. split.
    + etransitivity; [exact Hperm |]. cbn [app]. constructor. exact Hp'.
    + cbn [map zrange]. congruence.
Qed.

Lemma Erase_loop_fault n : forall i (e : Env T G),
  (exists k, i <= k < i + Z.of_nat n /\ Forall (fun v => key v <> k) (container e)) ->
  for_loop n i Erase.body e = None.
Proof.
  induction n as [| n IH]; intros i e (k & Hk & Hmiss); [lia |].
  cbn [for_loop]. unfold bind at 1.
  destruct (Nat.eq_dec (first_match (holds (key_eq i)) (container e)) (length (container e)))
    as [E | Hne].
  - rewrite (Erase_body_missing i e E). reflexivity.
  - pose proof (first_match_le (holds (key_eq i)) (container e)) as Hle.
    assert (Hlt : (first_match (holds (key_eq i)) (container e) < length (container e))%nat)
      by lia.
    rewrite (Erase_body_found i e Hlt). apply IH. exists k. cbn [container]. split.
    + assert (k <> i); [| lia]. intros ->.
      apply key_eq_missing in Hmiss. lia.
    + rewrite Forall_forall in *. intros y Hy. apply Hmiss.
      eapply erase_at_incl; eassumption.
Qed.
End EraseFacts.

(** C1 (as amended).  A pass of [Erase] whose scan finds an element with
    key [i] erases the first such element and nothing else; a pass whose
    scan finds none hands [end(c)] to [erase], which is outside the
    container's contract.  [Erase::run] returns, having removed exactly
    one element for each key of [[0, 1000)], when the container holds all
    these keys, and faults when one of them is missing. *)
Theorem Erase_run_spec `{Element T} {G : Type} (size : Z) (e : Env T G) :
  (forall i (e0 : Env T G),
      (exists prefix v rest e1,
          container e0 = prefix ++ v :: rest /\
          Forall (fun w => key w <> i) prefix /\ key v = i /\
          Erase.body i e0 = Some (tt, e1) /\
          container e1 = prefix ++ rest) \/
      (Forall (fun w => key w <> i) (container e0) /\ Erase.body i e0 = None)) /\
  (holds_keys (container e) 0 1000 ->
   exists e' removed,
     Erase.run size e = Some (tt, e') /\
     (length (container e') + 1000 = length (container e))%nat /\
     Permutation (container e) (removed ++ container e') /\
     map key removed = zrange 0 1000) /\
  ((exists k, 0 <= k < 1000 /\ Forall (fun w => key w <> k) (container e)) ->
   Erase.run size e = None).
Proof.
  split; [| split].
  - intros i e0.
    set (it := first_match (holds (key_eq i)) (container e0)).
    pose proof (first_match_le (holds (key_eq i)) (container e0)) as Hle. fold it in Hle.
    destruct (Nat.eq_dec it (length (container e0))) as [E | Hne].
    + right. split; [apply key_eq_missing; exact E | apply Erase_body_missing; exact E].
    + left. assert (Hlt : (it < length (container e0))%nat) by lia.
      pose proof (first_match_suffix (holds (key_eq i)) (container e0)) as Hs. fold it in Hs.
      destruct (skipn it (container e0)) as [| v rest] eqn:Esk; [lia |].
      exists (firstn it (container e0)), v, rest. eexists.
      split; [rewrite <- Esk; symmetry; apply firstn_skipn |].
      split.
      { eapply Forall_impl; [| apply first_match_prefix].
        cbn. intros w Hw. apply Z.eqb_neq. exact Hw. }
      split; [apply Z.eqb_eq; exact Hs |].
      split; [apply Erase_body_found; exact Hlt |].
      cbn [container]. fold it. unfold erase_at. f_equal.
      change (S it) with (1 + it)%nat. rewrite <- skipn_skipn, Esk. reflexivity.
  - intros Hk.
    destruct (@Erase_loop_ok _ _ _ (Z.to_nat 1000) 0 e Hk)
      as (e' & removed & Hrun & _ & Hlen & Hp & Hkeys).
    exists e', removed. split; [exact Hrun |]. split; [exact Hlen |]. split; assumption.
  - intros Hmiss. apply Erase_loop_fault. exact Hmiss.
Qed.

(** C1, the claim as stated fails: on the one-element container holding
    key 5, the scan for key 0 finds nothing, and the pass is a fault, not
    a pass that leaves the container as it was. *)
Lemma Erase_end_not_noop :
  first_match (holds (key_eq 0)) (container lone_five) = length (container lone_five) /\
  Erase.body 0 lone_five = None /\
  Erase.run 1 lone_five = None /\
  ~ (exists e', Erase.body 0 lone_five = Some (tt, e') /\ container e' = container lone_five).
Proof.
  repeat split; try reflexivity.
  intros (e' & Hrun & _). discriminate Hrun.
Qed.

(** ** FilledRandom *)

Lemma iota_length n value : length (iota n value) = n.
Proof. revert value. induction n; intros; simpl; auto. Qed.

(** Within the range of [int] the counter of [iota] does not wrap. *)
Lemma iota_zrange n : forall value,
  0 <= value -> value + Z.of_nat n <= INT_MAX + 1 -> iota n value = zrange value n.
Proof.
  unfold INT_MAX.
  induction n as [| n IH]; intros value H0 Hmax; [reflexivity |].
  cbn [iota zrange]. f_equal.
  - unfold to_size_t. apply Z.mod_small. lia.
  - destruct n as [| n]; [reflexivity |].
    assert (E : to_int (value + 1) = value + 1).
    { unfold to_int. rewrite Z.mod_small; lia. }
    rewrite E. apply IH; lia.
Qed.

Section FilledRandomFacts.
Context `{Element T} `{StdRandom}.
Hypothesis shuffle_permutes : shuffle_contract.

Lemma shuffle_length l g : length (shuffle l g) = length l.
Proof. symmetry. apply Permutation_length, shuffle_permutes. Qed.

Lemma fill_map (v : list Z) : FilledRandom.fill v = map brace_init v.
Proof.
  unfold FilledRandom.fill.
  enough (forall acc : list T,
             fold_left (fun c val => c ++ [brace_init val]) v acc = acc ++ map brace_init v)
    as E by apply (E []).
  induction v as [| val v IH]; intros acc; simpl.
  - rewrite app_nil_r. reflexivity.
  - rewrite IH, <- app_assoc. reflexivity.
Qed.

Lemma permutation_length size :
  length (FilledRandom.permutation size) = Z.to_nat size.
Proof. unfold FilledRandom.permutation. rewrite shuffle_length, iota_length. reflexivity. Qed.

(** The static [v] always holds the permutation for its own length. *)
Lemma reachable_invariant v :
  FilledRandom.reachable v -> v = FilledRandom.permutation (Z.of_nat (length v)).
Proof.
  induction 1 as [| size v Hv IH].
  - unfold FilledRandom.permutation. simpl.
    symmetry. apply Permutation_nil, shuffle_permutes.
  - unfold FilledRandom.prepare.
    destruct (negb (Z.of_nat (length v) =? size)); [| exact IH].
    fold (FilledRandom.permutation size).
    rewrite permutation_length.
    unfold FilledRandom.permutation. rewrite Nat2Z.id. reflexivity.
Qed.

Lemma prepare_reachable size v :
  FilledRandom.reachable v -> 0 <= size ->
  FilledRandom.prepare size v = FilledRandom.permutation size.
Proof.
  intros Hv Hsize. unfold FilledRandom.prepare.
  destruct (Z.eqb_spec (Z.of_nat (length v)) size) as [E | _]; [| reflexivity].
  cbn [negb]. rewrite <- E. apply reachable_invariant, Hv.
Qed.

Lemma make_reachable size v :
  FilledRandom.reachable v -> 0 <= size ->
  FilledRandom.make size v =
  (map brace_init (FilledRandom.permutation size), FilledRandom.permutation size).
Proof.
  intros Hv Hsize. unfold FilledRandom.make.
  rewrite (prepare_reachable Hv Hsize), fill_map. reflexivity.
Qed.

Lemma permutation_keys size :
  0 <= size <= INT_MAX ->
  Permutation (zrange 0 (Z.to_nat size)) (FilledRandom.permutation size).
Proof.
  intros Hsize. unfold FilledRandom.permutation.
  rewrite <- (@iota_zrange (Z.to_nat size) 0) by lia.
  apply shuffle_permutes.
Qed.

Lemma make_all_reachable sizes : forall v,
  FilledRandom.reachable v -> Forall (fun size => 0 <= size) sizes ->
  FilledRandom.make_all sizes v =
  map (fun size => map brace_init (FilledRandom.permutation size)) sizes.
Proof.
  induction sizes as [| size sizes IH]; intros v Hv Hs; [reflexivity |].
  inversion Hs as [| ? ? Hsize Hrest]; subst.
  cbn [FilledRandom.make_all map].
  rewrite (make_reachable Hv Hsize). f_equal.
  apply IH; [| exact Hrest].
  rewrite <- (prepare_reachable Hv Hsize). constructor. exact Hv.
Qed.
End FilledRandomFacts.

(** C4.  Whatever calls came before, [FilledRandom::make(size)] returns
    [size] elements whose keys are exactly [0, ..., size-1], each once;
    the call leaves the static [v] such that a repeated call with the same
    size returns the same container. *)
Theorem FilledRandom_make_keys `{Element T} `{StdRandom} (size : Z) (v : list Z) :
  Element_lawful -> shuffle_contract ->
  FilledRandom.reachable v ->
  0 <= size <= INT_MAX ->
  let c : list T := fst (FilledRandom.make size v) in
  let v' := snd (FilledRandom.make (T:=T) size v) in
  Z.of_nat (length c) = size /\
  Permutation (map key c) (zrange 0 (Z.to_nat size)) /\
  NoDup (map key c) /\
  (forall k, In k (map key c) <-> 0 <= k < size) /\
  FilledRandom.reachable v' /\
  fst (FilledRandom.make size v') = c.
Proof.
  intros Hlaw Hsh Hv Hsize c v'.
  assert (Hsize0 : 0 <= size) by lia.
  assert (Hv' : FilledRandom.reachable v') by (constructor; exact Hv).
  subst c. rewrite (make_reachable Hsh Hv' Hsize0).
  subst v'. rewrite (make_reachable Hsh Hv Hsize0). cbn [fst snd].
  assert (Hkeys : map key (map brace_init (FilledRandom.permutation size))
                  = FilledRandom.permutation size).
  { rewrite map_map. erewrite map_ext; [apply map_id |]. exact Hlaw. }
  rewrite Hkeys.
  pose proof (permutation_keys Hsh Hsize) as Hperm.
  split; [rewrite length_map, (permutation_length Hsh); lia |].
  split; [symmetry; exact Hperm |].
  split; [eapply Permutation_NoDup; [exact Hperm | apply zrange_NoDup] |].
  split; [| split; [rewrite <- (prepare_reachable Hsh Hv Hsize0); constructor; exact Hv
                   | reflexivity]].
  intros k. split; intros Hk.
  - apply Permutation_sym in Hperm. apply (Permutation_in _ Hperm) in Hk.
    apply zrange_In in Hk. lia.
  - apply (Permutation_in _ Hperm). apply zrange_In. lia.
Qed.

Lemma prepare_idempotent `{StdRandom} size v :
  FilledRandom.prepare size (FilledRandom.prepare size v) = FilledRandom.prepare size v.
Proof.
  unfold FilledRandom.prepare at 1.
  destruct (Z.eqb_spec (Z.of_nat (length (FilledRandom.prepare size v))) size) as [E | Hne];
    [reflexivity |].
  cbn [negb]. unfold FilledRandom.prepare in *.
  destruct (Z.eqb_spec (Z.of_nat (length v)) size) as [E' | _]; [| reflexivity].
  cbn [negb] in Hne. contradiction.
Qed.

Lemma app_prefix_firstn {A} (l p suffix : list A) :
  l = p ++ suffix -> firstn (length p) l = p.
Proof.
  intros ->. rewrite firstn_app, Nat.sub_diag, firstn_all. simpl. apply app_nil_r.
Qed.

Lemma FilledRandom_same_size `{Element T} `{StdRandom} (size : Z) (v0 : list Z) :
  shuffle_contract -> 0 <= size ->
  let first : list T * list Z := FilledRandom.make size v0 in
  let second : list T * list Z := FilledRandom.make size (snd first) in
  negb (Z.of_nat (length (snd first)) =? size) = false /\
  snd second = snd first /\
  fst second = fst first.
Proof.
  intros Hsh Hsize first second. subst first second.
  unfold FilledRandom.make. cbn [fst snd].
  rewrite prepare_idempotent. split; [| split; reflexivity].
  apply negb_false_iff, Z.eqb_eq.
  unfold FilledRandom.prepare.
  destruct (Z.eqb_spec (Z.of_nat (length v0)) size) as [E | _]; cbn [negb]; [exact E |].
  rewrite (shuffle_length Hsh), iota_length. lia.
Qed.

(** With libstdc++ the shuffle of 200 slots does not start with the
    shuffle of 100 slots: the fourth values are 124 and 85. *)
Lemma libstdcxx_fresh_200 :
  nth 3 (FilledRandom.permutation (H:=libstdcxx) 200) 0 = 124 /\
  nth 3 (FilledRandom.permutation (H:=libstdcxx) 100) 0 = 85 /\
  ~ (exists suffix,
        FilledRandom.permutation (H:=libstdcxx) 200 =
        FilledRandom.permutation (H:=libstdcxx) 100 ++ suffix).
Proof.
  split; [vm_compute; reflexivity |]. split; [vm_compute; reflexivity |].
  intros (suffix & E). apply app_prefix_firstn in E.
  apply (f_equal (fun l => nth 3 l 0)) in E. vm_compute in E. discriminate E.
Qed.

(** C3.  With the library the benchmark is built against (libstdc++), and
    whatever calls came before: two calls of [FilledRandom::make] in a row
    with the same size return the same container, element for element, the
    second finding [v.size() == size] and leaving the static [v] alone;
    a call with size 100 followed by a call with size 200 stores a new
    shuffle of [0, ..., 199] and returns 200 elements with exactly these
    keys, which are not the keys of the 100-element result followed by a
    suffix. *)
Theorem FilledRandom_cache `{Element T} (v : list Z) :
  Element_lawful ->
  FilledRandom.reachable (H:=libstdcxx) v ->
  (forall size, 0 <= size ->
      let first : list T * list Z := FilledRandom.make size v in
      let second : list T * list Z := FilledRandom.make size (snd first) in
      negb (Z.of_nat (length (snd first)) =? size) = false /\
      snd second = snd first /\
      fst second = fst first /\
      map key (fst second) = map key (fst first)) /\
  (let first : list T * list Z := FilledRandom.make 100 v in
   let second : list T * list Z := FilledRandom.make 200 (snd first) in
   negb (Z.of_nat (length (snd first)) =? 200) = true /\
   snd second = shuffle (iota 200 0) mt19937_default /\
   length (fst second) = 200%nat /\
   Permutation (map key (fst second)) (zrange 0 200) /\
   ~ (exists suffix, map key (fst second) = map key (fst first) ++ suffix)).
Proof.
  intros Hlaw Hv.
  pose proof LibstdcxxFacts.shuffle_meets_contract as Hsh. split.
  - intros size Hsize first second.
    destruct (@FilledRandom_same_size T _ libstdcxx size v Hsh Hsize) as (Hguard & Hv' & Hc).
    fold first in Hguard, Hv', Hc. fold second in Hv', Hc.
    repeat split; try assumption. rewrite Hc. reflexivity.
  - intros first second.
    assert (H100 : first = (map brace_init (FilledRandom.permutation 100),
                            FilledRandom.permutation 100)).
    { subst first. apply make_reachable; [assumption | assumption | lia]. }
    assert (H200 : second = (map brace_init (FilledRandom.permutation 200),
                             FilledRandom.permutation 200)).
    { subst second. apply make_reachable; [assumption | | lia].
      rewrite H100. cbn [snd].
      rewrite <- (@prepare_reachable _ Hsh 100 v Hv) by lia. constructor. exact Hv. }
    assert (Hkeys : forall l : list Z, map key (map (brace_init (T:=T)) l) = l).
    { intros l. rewrite map_map. erewrite map_ext; [apply map_id | exact Hlaw]. }
    rewrite H200, H100. cbn [fst snd]. rewrite !Hkeys.
    split; [rewrite (permutation_length Hsh); reflexivity |].
    split; [reflexivity |].
    split; [rewrite length_map; apply (permutation_length Hsh) |].
    split; [| apply libstdcxx_fresh_200].
    symmetry. apply (@permutation_keys _ Hsh 200). unfold INT_MAX. lia.
Qed.

(** C10.  The container [FilledRandom::make] returns is a function of the
    requested size alone: it is built from the shuffle, by a default-seeded
    generator, of [iota] over [size] slots, whatever the earlier calls were.
    So the containers returned along any sequence of requests, from program
    start, depend on the requested sizes only, and asking for 100, 200 and
    100 again returns, the third time, the container of the first. *)
Theorem FilledRandom_deterministic `{Element T} `{StdRandom} :
  shuffle_contract ->
  (forall size v, FilledRandom.reachable v -> 0 <= size ->
      FilledRandom.make (T:=T) size v =
      (map brace_init (FilledRandom.permutation size), FilledRandom.permutation size)) /\
  (forall sizes, Forall (fun size => 0 <= size) sizes ->
      FilledRandom.make_all (T:=T) sizes [] =
      map (fun size => map brace_init (FilledRandom.permutation size)) sizes) /\
  (forall size, 0 <= size ->
      FilledRandom.permutation size = shuffle (iota (Z.to_nat size) 0) mt19937_default) /\
  nth 2 (FilledRandom.make_all (T:=T) [100; 200; 100] []) [] =
  nth 0 (FilledRandom.make_all (T:=T) [100; 200; 100] []) [].
Proof.
  intros Hsh. split; [| split; [| split]].
  - intros size v Hv Hsize. apply make_reachable; assumption.
  - intros sizes Hs. apply make_all_reachable; [assumption | constructor | assumption].
  - reflexivity.
  - rewrite (@make_all_reachable T _ _ Hsh [100; 200; 100] []).
    + reflexivity.
    + constructor.
    + repeat constructor; lia.
Qed.

(** ** Sort *)

Section SortFacts.
Context `{Element T}.

Lemma ascending_keys (l : list T) : ascending l <-> Sorted Z.le (map key l).
Proof.
  unfold ascending. induction l as [| x l IH]; simpl.
  - split; constructor.
  - split; intros Hs; inversion Hs as [| ? ? Hl Hhd]; subst; constructor;
      try (apply IH; assumption).
    + destruct l; simpl; constructor. inversion Hhd; subst.
      unfold elt_lt in *. apply Z.ltb_ge. assumption.
    + destruct l; simpl in *; constructor. inversion Hhd; subst.
      unfold elt_lt. apply Z.ltb_ge. assumption.
Qed.

Lemma sorted_le_unique (l1 : list Z) : forall l2,
  Sorted Z.le l1 -> Sorted Z.le l2 -> Permutation l1 l2 -> l1 = l2.
Proof.
  induction l1 as [| x l1 IH]; intros l2 H1 H2 Hp.
  - apply Permutation_nil in Hp. auto.
  - destruct l2 as [| y l2]; [apply Permutation_sym, Permutation_nil in Hp; discriminate |].
    apply Sorted_StronglySorted in H1; [| intros a b c; apply Z.le_trans].
    apply Sorted_StronglySorted in H2; [| intros a b c; apply Z.le_trans].
    inversion H1 as [| ? ? Hs1 Hall1]; subst. inversion H2 as [| ? ? Hs2 Hall2]; subst.
    assert (x = y) as ->.
    { assert (Hx : In x (y :: l2)) by (eapply Permutation_in; [exact Hp | left; reflexivity]).
      assert (Hy : In y (x :: l1))
        by (eapply Permutation_in; [symmetry; exact Hp | left; reflexivity]).
      rewrite Forall_forall in Hall1, Hall2.
      destruct Hx as [-> | Hx]; [reflexivity |].
      destruct Hy as [-> | Hy]; [reflexivity |].
      specialize (Hall1 _ Hy). specialize (Hall2 _ Hx). lia. }
    f_equal. apply IH.
    + apply StronglySorted_Sorted; assumption.
    + apply StronglySorted_Sorted; assumption.
    + eapply Permutation_cons_inv; exact Hp.
Qed.

(** Two sequences of the same elements with the same key sequence are
    equal when the key tells the elements apart. *)
Lemma same_keys_same_elements (l1 : list T) : forall l2 : list T,
  map key l1 = map key l2 ->
  (forall x, In x l1 -> In x l2) ->
  (forall x y, In x l2 -> In y l2 -> key x = key y -> x = y) ->
  l1 = l2.
Proof.
  intros l2 Hk Hin Hinj.
  assert (Hgen : forall a b : list T,
             map key a = map key b -> incl a l2 -> incl b l2 -> a = b).
  { induction a as [| x a IH]; intros [| y b] Hm Ha Hb; try discriminate; [reflexivity |].
    simpl in Hm. injection Hm as Hxy Hrest.
    f_equal.
    - apply Hinj; [apply Ha; left; reflexivity | apply Hb; left; reflexivity | exact Hxy].
    - apply IH; [assumption | |]; intros z Hz; [apply Ha | apply Hb]; right; assumption. }
  apply Hgen; [assumption | exact Hin | apply incl_refl].
Qed.
End SortFacts.

(** C6.  For each container kind, [Sort::run] returns a container of the
    same length holding the same elements (hence the same multiset of
    keys) with keys in non-decreasing order.  Sorting a container that is
    already in order leaves its key sequence as it is, and the element
    sequence too when elements with equal keys are equal; sorting twice
    gives the key sequence of sorting once. *)
Theorem Sort_run_spec `{Element T} `{StdSort T} {G : Type}
    (kind : ContainerKind) (size : Z) (e : Env T G) :
  sort_contract std_sort -> sort_contract list_sort ->
  exists e',
    Sort.run kind size e = Some (tt, e') /\
    ascending (container e') /\
    Sorted Z.le (map key (container e')) /\
    length (container e') = length (container e) /\
    Permutation (container e) (container e') /\
    Permutation (map key (container e)) (map key (container e')) /\
    (ascending (container e) -> map key (container e') = map key (container e)) /\
    (ascending (container e) ->
     (forall x y, In x (container e) -> In y (container e) -> key x = key y -> x = y) ->
     container e' = container e) /\
    (exists e'', Sort.run kind size e' = Some (tt, e'') /\
                 map key (container e'') = map key (container e') /\
                 length (container e'') = length (container e')).
Proof.
  intros Hstd Hlist.
  set (sort := match kind with
               | std_list => list_sort
               | std_vector | std_deque => std_sort
               end).
  assert (Hsort : sort_contract sort) by (destruct kind; assumption).
  assert (Hrun : forall e0 : Env T G,
             Sort.run kind size e0 =
             Some (tt, mkEnv (sort (container e0)) (generator e0) (calls e0 ++ [call_sort]))).
  { intros e0. unfold Sort.run. destruct kind; reflexivity. }
  assert (Hidem : forall c : list T, ascending c -> map key (sort c) = map key c).
  { intros c Hc. destruct (Hsort c) as [Hp Ha].
    apply sorted_le_unique; [apply ascending_keys, Ha | apply ascending_keys, Hc |].
    apply Permutation_map. symmetry. exact Hp. }
  destruct (Hsort (container e)) as [Hp Ha].
  eexists. split; [apply Hrun |]. cbn [container].
  split; [exact Ha |].
  split; [apply ascending_keys, Ha |].
  split; [symmetry; apply Permutation_length, Hp |].
  split; [exact Hp |].
  split; [apply Permutation_map, Hp |].
  split; [apply Hidem |].
  split.
  - intros Hc Hinj. apply same_keys_same_elements; [apply Hidem, Hc | | exact Hinj].
    intros x Hx. eapply Permutation_in; [symmetry; exact Hp | exact Hx].
  - eexists. split; [apply Hrun |]. cbn [container].
    split; [apply Hidem, Ha |].
    symmetry. apply Permutation_length. apply (proj1 (Hsort _)).
Qed.

(** ** RandomSortedInsert *)

Section RandomSortedInsertFacts.
Context `{Element T} `{StdRandom}.

(** The value the next pass draws. *)
Definition next_draw (e : Env T URBG) : Z :=
  fst (uniform_int RandomSortedInsert.distribution_a RandomSortedInsert.distribution_b
                   (generator e)).

Lemma RandomSortedInsert_body_spec i (e : Env T URBG) :
  let val := next_draw e in
  let it := first_match (holds (key_ge val)) (container e) in
  exists g log,
    RandomSortedInsert.body i e =
    Some (tt, mkEnv (insert_before it (brace_init val) (container e)) g log).
Proof.
  intros val it.
  unfold RandomSortedInsert.body, RandomSortedInsert.draw, bind, find_if, insert.
  subst val it. unfold next_draw.
  destruct (uniform_int _ _ (generator e)) as [val g]. cbn [fst container generator calls].
  pose proof (first_match_le (holds (key_ge val)) (container e)) as Hle.
  apply Nat.leb_le in Hle. rewrite Hle. eauto.
Qed.

Lemma key_ge_false val (v : T) : holds (key_ge val) v = false <-> key v < val.
Proof. cbn. rewrite Z.geb_leb. apply Z.leb_gt. Qed.

Lemma key_ge_true val (v : T) : holds (key_ge val) v = true <-> val <= key v.
Proof. cbn. rewrite Z.geb_leb. apply Z.leb_le. Qed.

(** The container after the pass that drew [val]: the new element stands
    before the first element whose key is [>= val]. *)
Definition sorted_insert (c : list T) (val : Z) : list T :=
  insert_before (first_match (holds (key_ge val)) c) (brace_init val) c.

(** The values [n] successive calls [distribution(generator)] return from
    the generator state [g], and the state they leave the generator in. *)
Fixpoint draws (n : nat) (g : URBG) : list Z * URBG :=
  match n with
  | O => ([], g)
  | S n' =>
      let '(val, g1) := uniform_int RandomSortedInsert.distribution_a
                                    RandomSortedInsert.distribution_b g in
      let '(vals, g2) := draws n' g1 in
      (val :: vals, g2)
  end.

(** The calls that passes drawing [vals] make on a container holding [c]:
    one [find_if] and one [insert] per pass. *)
Fixpoint passes_calls (c : list T) (vals : list Z) : list (Call T) :=
  match vals with
  | [] => []
  | val :: vals' =>
      let it := first_match (holds (key_ge val)) c in
      call_find_if (key_ge val) it :: call_insert it (brace_init val)
        :: passes_calls (sorted_insert c val) vals'
  end.

Lemma draws_length n : forall g, length (fst (draws n g)) = n.
Proof.
  induction n as [| n IH]; intros g; [reflexivity |].
  cbn [draws]. destruct (uniform_int _ _ g) as [val g1].
  specialize (IH g1). destruct (draws n g1) as [vals g2].
  cbn [fst length] in *. rewrite IH. reflexivity.
Qed.

Lemma RandomSortedInsert_body_exact i (e : Env T URBG) :
  let val := next_draw e in
  let it := first_match (holds (key_ge val)) (container e) in
  RandomSortedInsert.body i e =
  Some (tt, mkEnv (sorted_insert (container e) val)
                  (snd (uniform_int RandomSortedInsert.distribution_a
                                    RandomSortedInsert.distribution_b (generator e)))
                  (calls e ++ [call_find_if (key_ge val) it;
                               call_insert it (brace_init val)])).
Proof.
  intros val it.
  unfold RandomSortedInsert.body, RandomSortedInsert.draw, bind, find_if, insert.
  subst val it. unfold next_draw, sorted_insert.
  destruct (uniform_int _ _ (generator e)) as [val g].
  cbn [fst snd container generator calls].
  pose proof (first_match_le (holds (key_ge val)) (container e)) as Hle.
  apply Nat.leb_le in Hle. rewrite Hle. rewrite <- app_assoc. reflexivity.
Qed.

(** The loop is [n] passes: it consumes [n] draws, and its container,
    generator and calls are those of the passes made one after another. *)
Lemma RandomSortedInsert_loop_exact n : forall i (e : Env T URBG),
  for_loop n i RandomSortedInsert.body e =
  Some (tt, mkEnv (fold_left sorted_insert (fst (draws n (generator e))) (container e))
                  (snd (draws n (generator e)))
                  (calls e ++ passes_calls (container e) (fst (draws n (generator e))))).
Proof.
  induction n as [| n IH]; intros i e.
  - cbn [for_loop draws fst snd fold_left passes_calls]. rewrite app_nil_r.
    destruct e; reflexivity.
  - cbn [for_loop]. unfold bind at 1. rewrite RandomSortedInsert_body_exact.
    rewrite IH. cbn [container generator calls draws]. unfold next_draw.
    destruct (uniform_int _ _ (generator e)) as [val g1]. cbn [fst snd].
    destruct (draws n g1) as [vals g2]. cbn [fst snd fold_left passes_calls].
    rewrite <- app_assoc. reflexivity.
Qed.

Hypothesis lawful : Element_lawful.

(** Inserting before the first key [>= val] keeps the keys in order. *)
Lemma insert_keeps_order val (c : list T) :
  Sorted Z.le (map key c) ->
  Sorted Z.le
    (map key (insert_before (first_match (holds (key_ge val)) c) (brace_init val) c)).
Proof.
  unfold insert_before.
  induction c as [| y c IH]; intros Hs.
  - simpl. repeat constructor.
  - cbn [first_match]. destruct (holds (key_ge val) y) eqn:E.
    + cbn [firstn skipn app map]. constructor; [exact Hs |].
      constructor. rewrite lawful. apply key_ge_true, E.
    + cbn [firstn skipn app map]. inversion Hs as [| ? ? Hs' Hhd]; subst.
      constructor; [apply IH, Hs' |].
      apply key_ge_false in E.
      destruct c as [| z c]; cbn [first_match].
      * simpl. constructor. rewrite lawful. lia.
      * destruct (holds (key_ge val) z); cbn [firstn skipn app map].
        -- constructor. rewrite lawful. lia.
        -- constructor. inversion Hhd; subst. assumption.
Qed.

Lemma sorted_insert_keeps_order vals : forall c : list T,
  Sorted Z.le (map key c) -> Sorted Z.le (map key (fold_left sorted_insert vals c)).
Proof.
  induction vals as [| val vals IH]; intros c Hs; [exact Hs |].
  cbn [fold_left]. apply IH, insert_keeps_order, Hs.
Qed.

(** The keys after the passes are the keys before and the drawn values. *)
Lemma sorted_insert_keys vals : forall c : list T,
  Permutation (map key (fold_left sorted_insert vals c)) (vals ++ map key c).
Proof.
  induction vals as [| val vals IH]; intros c; [reflexivity |].
  cbn [fold_left]. etransitivity; [apply IH |].
  pose proof (Permutation_map key
                (insert_before_Permutation (first_match (holds (key_ge val)) c)
                                           (brace_init val) c)) as Hp.
  cbn [map] in Hp. rewrite lawful in Hp. fold (sorted_insert c val) in Hp.
  rewrite Hp. symmetry. apply Permutation_middle.
Qed.

Lemma RandomSortedInsert_loop n : forall i (e : Env T URBG),
  Sorted Z.le (map key (container e)) ->
  exists e',
    for_loop n i RandomSortedInsert.body e = Some (tt, e') /\
    length (container e') = (n + length (container e))%nat /\
    Sorted Z.le (map key (container e')).
Proof.
  induction n as [| n IH]; intros i e Hs.
  - exists e. repeat split. assumption.
  - cbn [for_loop]. unfold bind at 1.
    destruct (RandomSortedInsert_body_spec i e) as (g & log & ->).
    match goal with |- context [for_loop n (i + 1) _ ?e1] =>
      destruct (IH (i + 1) e1) as (e' & Hrun & Hlen & Hs') end.
    { cbn [container]. apply insert_keeps_order, Hs. }
    exists e'. cbn [container] in Hlen. rewrite insert_before_length in Hlen.
    repeat split; [assumption | lia | assumption].
Qed.

Hypothesis draws_in_range : uniform_int_contract.

Lemma next_draw_range (e : Env T URBG) :
  RandomSortedInsert.distribution_a <= next_draw e <= RandomSortedInsert.distribution_b.
Proof. apply draws_in_range; vm_compute; try split; discriminate. Qed.

Lemma RandomSortedInsert_loop_keys (P : Z -> Prop) n : forall i (e e' : Env T URBG),
  (forall val, RandomSortedInsert.distribution_a <= val <=
               RandomSortedInsert.distribution_b -> P val) ->
  Forall (fun v => P (key v)) (container e) ->
  for_loop n i RandomSortedInsert.body e = Some (tt, e') ->
  Forall (fun v => P (key v)) (container e').
Proof.
  induction n as [| n IH]; intros i e e' HP Hall Hrun.
  - injection Hrun as <-. exact Hall.
  - cbn [for_loop] in Hrun. unfold bind at 1 in Hrun.
    destruct (RandomSortedInsert_body_spec i e) as (g & log & E). rewrite E in Hrun.
    eapply IH; [exact HP | | exact Hrun]. cbn [container].
    eapply Permutation_Forall; [symmetry; apply insert_before_Permutation |].
    constructor; [| exact Hall]. rewrite lawful. apply HP, next_draw_range.
Qed.
End RandomSortedInsertFacts.

(** C7.  Each pass of [RandomSortedInsert] draws a value, splits the
    container at the first element whose key is [>=] that value (or at its
    end) and puts the new element there.  Run to completion on an empty
    container, the policy makes exactly [size] such passes, one per value
    drawn from the static generator: the container it returns is the one
    built by inserting the [size] drawn values in turn, its keys are those
    values, the calls made are one [find_if] and one [insert] per pass,
    the generator is left after [size] draws, and the [size] elements have
    their keys in non-decreasing order. *)
Theorem RandomSortedInsert_sorted `{Element T} `{StdRandom} (size : Z) (e : Env T URBG) :
  Element_lawful ->
  0 <= size ->
  container e = [] ->
  (forall i (e0 : Env T URBG),
      exists prefix suffix e1,
        container e0 = prefix ++ suffix /\
        Forall (fun v => key v < next_draw e0) prefix /\
        (suffix = [] \/ exists v rest, suffix = v :: rest /\ next_draw e0 <= key v) /\
        RandomSortedInsert.body i e0 = Some (tt, e1) /\
        container e1 = prefix ++ brace_init (next_draw e0) :: suffix /\
        key (brace_init (T:=T) (next_draw e0)) = next_draw e0 /\
        container e1 = sorted_insert (container e0) (next_draw e0) /\
        draws 1 (generator e0) = ([next_draw e0], generator e1)) /\
  exists e' vals,
    RandomSortedInsert.run size e = Some (tt, e') /\
    Z.of_nat (length (container e')) = size /\
    ascending (container e') /\
    Sorted Z.le (map key (container e')) /\
    draws (Z.to_nat size) (generator e) = (vals, generator e') /\
    Z.of_nat (length vals) = size /\
    container e' = fold_left sorted_insert vals [] /\
    Permutation (map key (container e')) vals /\
    calls e' = calls e ++ passes_calls [] vals.
Proof.
  intros Hlaw Hsize Hempty. split.
  - intros i e0.
    set (it := first_match (holds (key_ge (next_draw e0))) (container e0)).
    pose proof (RandomSortedInsert_body_exact i e0) as Hbody. cbv zeta in Hbody.
    fold it in Hbody.
    exists (firstn it (container e0)), (skipn it (container e0)). eexists.
    split; [symmetry; apply firstn_skipn |].
    split.
    { eapply Forall_impl; [| apply first_match_prefix].
      intros v Hv. apply key_ge_false. exact Hv. }
    split.
    { pose proof (first_match_suffix (holds (key_ge (next_draw e0))) (container e0)) as Hs.
      fold it in Hs. destruct (skipn it (container e0)) as [| v rest]; [left; reflexivity |].
      right. exists v, rest. split; [reflexivity |]. apply key_ge_true. exact Hs. }
    split; [exact Hbody |]. split; [reflexivity |]. split; [apply Hlaw |].
    split; [reflexivity |].
    cbn [draws generator]. unfold next_draw.
    destruct (uniform_int _ _ (generator e0)) as [val g1]. reflexivity.
  - pose proof (RandomSortedInsert_loop_exact (Z.to_nat size) 0 e) as Hrun.
    pose proof (draws_length (Z.to_nat size) (generator e)) as Hlen.
    destruct (draws (Z.to_nat size) (generator e)) as [vals g'].
    cbn [fst snd] in Hrun, Hlen. rewrite Hempty in Hrun.
    pose proof (@sorted_insert_keys T _ Hlaw vals []) as Hkeys.
    cbn [map] in Hkeys. rewrite app_nil_r in Hkeys.
    assert (Hs : Sorted Z.le (map key (fold_left sorted_insert vals ([] : list T)))).
    { apply (@sorted_insert_keeps_order T _ Hlaw). constructor. }
    eexists. exists vals. split; [exact Hrun |]. cbn [container generator calls].
    split.
    { rewrite <- (length_map key), (Permutation_length Hkeys). lia. }
    split; [apply ascending_keys; exact Hs |]. split; [exact Hs |].
    split; [reflexivity |]. split; [lia |]. split; [reflexivity |].
    split; [exact Hkeys | reflexivity].
Qed.

(** ** The outputs of [std::mt19937] *)
Module Mt19937Facts.
Import Libstdcxx.

(** The tempering [operator()] applies to the state word it reads. *)
Definition temper (z : Z) : Z :=
  let z := Z.lxor z (Z.land (Z.shiftr z 11) 0xffffffff) in
  let z := Z.lxor z (Z.land (Z.shiftl z 7) 0x9d2c5680) in
  let z := Z.lxor z (Z.land (Z.shiftl z 15) 0xefc60000) in
  let z := Z.lxor z (Z.shiftr z 18) in
  word z.

(** The four steps of the tempering undone, on 32-bit words. *)
Definition undo_shiftr_18 (y : Z) : Z := Z.lxor y (Z.shiftr y 18).

Definition undo_shiftl_15 (y : Z) : Z := Z.lxor y (Z.land (Z.shiftl y 15) 0xefc60000).

Definition undo_shiftl_7 (y : Z) : Z :=
  let z := Z.lxor y (Z.land (Z.shiftl y 7) 0x9d2c5680) in
  let z := Z.lxor y (Z.land (Z.shiftl z 7) 0x9d2c5680) in
  let z := Z.lxor y (Z.land (Z.shiftl z 7) 0x9d2c5680) in
  Z.lxor y (Z.land (Z.shiftl z 7) 0x9d2c5680).

Definition undo_shiftr_11 (y : Z) : Z :=
  let z := Z.lxor y (Z.shiftr y 11) in
  Z.lxor y (Z.shiftr z 11).

(** A state word that tempers to the 32-bit word [y]. *)
Definition untemper (y : Z) : Z :=
  undo_shiftr_11 (undo_shiftl_7 (undo_shiftl_15 (undo_shiftr_18 y))).

(** A generator state whose next two outputs are [hi] and [lo]. *)
Definition state_yielding (hi lo : Z) : mt19937 :=
  mk_mt19937 (untemper hi :: untemper lo :: repeat 0 622) 0.

(** Maps that commute with exclusive or. *)
Definition linear (f : Z -> Z) : Prop :=
  forall x y, f (Z.lxor x y) = Z.lxor (f x) (f y).

Lemma linear_id : linear (fun z => z).
Proof. intros x y. reflexivity. Qed.

Lemma linear_shiftr f n : linear f -> linear (fun z => Z.shiftr (f z) n).
Proof. intros Hf x y. rewrite Hf. apply Z.shiftr_lxor. Qed.

Lemma linear_shiftl f n : linear f -> linear (fun z => Z.shiftl (f z) n).
Proof. intros Hf x y. rewrite Hf. apply Z.shiftl_lxor. Qed.

Lemma linear_land f m : linear f -> linear (fun z => Z.land (f z) m).
Proof.
  intros Hf x y. rewrite Hf. apply Z.bits_inj'. intros k _.
  rewrite Z.land_spec, !Z.lxor_spec, !Z.land_spec.
  destruct (Z.testbit (f x) k), (Z.testbit (f y) k), (Z.testbit m k); reflexivity.
Qed.

Lemma linear_lxor f g : linear f -> linear g -> linear (fun z => Z.lxor (f z) (g z)).
Proof.
  intros Hf Hg x y. rewrite Hf, Hg. apply Z.bits_inj'. intros k _.
  rewrite !Z.lxor_spec.
  destruct (Z.testbit (f x) k), (Z.testbit (f y) k),
           (Z.testbit (g x) k), (Z.testbit (g y) k); reflexivity.
Qed.

Lemma linear_word f : linear f -> linear (fun z => word (f z)).
Proof.
  intros Hf x y. unfold word. rewrite <- !(Z.land_ones _ 32) by lia.
  apply (@linear_land f (Z.ones 32) Hf).
Qed.

Lemma linear_compose f g : linear f -> linear g -> linear (fun z => f (g z)).
Proof. intros Hf Hg x y. rewrite Hg. apply Hf. Qed.

Ltac linear_steps :=
  repeat first [ apply linear_id | apply linear_word | apply linear_lxor
               | apply linear_land | apply linear_shiftl | apply linear_shiftr ].

Lemma linear_temper : linear temper.
Proof. unfold temper. cbv zeta. linear_steps. Qed.

Lemma linear_undo_shiftr_18 : linear undo_shiftr_18.
Proof. unfold undo_shiftr_18. linear_steps. Qed.

Lemma linear_undo_shiftl_15 : linear undo_shiftl_15.
Proof. unfold undo_shiftl_15. linear_steps. Qed.

Lemma linear_undo_shiftl_7 : linear undo_shiftl_7.
Proof. unfold undo_shiftl_7. cbv zeta. linear_steps. Qed.

Lemma linear_undo_shiftr_11 : linear undo_shiftr_11.
Proof. unfold undo_shiftr_11. cbv zeta. linear_steps. Qed.

Lemma linear_untemper : linear untemper.
Proof.
  unfold untemper.
  apply (@linear_compose undo_shiftr_11); [apply linear_undo_shiftr_11 |].
  apply (@linear_compose undo_shiftl_7); [apply linear_undo_shiftl_7 |].
  apply (@linear_compose undo_shiftl_15); [apply linear_undo_shiftl_15 |].
  apply linear_undo_shiftr_18.
Qed.

Lemma linear_temper_untemper : linear (fun y => temper (untemper y)).
Proof. apply (@linear_compose temper untemper linear_temper linear_untemper). Qed.

(** A power of two shares no bit with a smaller natural number. *)
Lemma land_pow2_small n r : 0 <= n -> 0 <= r < 2 ^ n -> Z.land (2 ^ n) r = 0.
Proof.
  intros Hn Hr. apply Z.bits_inj'. intros k Hk.
  rewrite Z.land_spec, Z.bits_0, Z.pow2_bits_eqb by exact Hn.
  destruct (Z.eqb_spec n k) as [<- |]; [| reflexivity].
  cbn [andb]. destruct (Z.eq_dec r 0) as [-> | Hnz]; [apply Z.bits_0 |].
  apply Z.bits_above_log2; [lia |]. apply Z.log2_lt_pow2; lia.
Qed.

(** A linear map that fixes the powers of two below [2^n] fixes every
    natural number below [2^n]. *)
Lemma linear_fixes f (n : nat) :
  linear f ->
  (forall i, (i < n)%nat -> f (2 ^ Z.of_nat i) = 2 ^ Z.of_nat i) ->
  forall v, 0 <= v < 2 ^ Z.of_nat n -> f v = v.
Proof.
  intros Hf. induction n as [| n IH]; intros Hbase v Hv.
  - assert (v = 0) as -> by (cbn in Hv; lia).
    pose proof (Hf 0 0) as H0. rewrite Z.lxor_nilpotent in H0.
    rewrite H0. apply Z.lxor_nilpotent.
  - rewrite Nat2Z.inj_succ, Z.pow_succ_r in Hv by lia.
    destruct (Z.lt_ge_cases v (2 ^ Z.of_nat n)) as [Hlt | Hge].
    + apply IH; [intros i Hi; apply Hbase; lia | lia].
    + assert (Hr : 0 <= v - 2 ^ Z.of_nat n < 2 ^ Z.of_nat n) by lia.
      assert (Hsplit : v = Z.lxor (2 ^ Z.of_nat n) (v - 2 ^ Z.of_nat n)).
      { rewrite <- Z.add_nocarry_lxor by (apply land_pow2_small; lia). lia. }
      rewrite Hsplit at 1. rewrite Hf, (Hbase n) by lia.
      rewrite (IH (fun i Hi => Hbase i (Nat.lt_lt_succ_r _ _ Hi))) by exact Hr.
      symmetry. exact Hsplit.
Qed.

(** On the 32 one-bit words. *)
Lemma temper_untemper_bits :
  forallb (fun i => temper (untemper (2 ^ Z.of_nat i)) =? 2 ^ Z.of_nat i) (seq 0 32) = true.
Proof. vm_compute. reflexivity. Qed.

(** Every 32-bit word is the tempering of a state word. *)
Lemma temper_untemper y : 0 <= y < 2 ^ 32 -> temper (untemper y) = y.
Proof.
  apply (@linear_fixes (fun y => temper (untemper y)) 32 linear_temper_untemper).
  intros i Hi. apply Z.eqb_eq.
  pose proof temper_untemper_bits as Hall. rewrite forallb_forall in Hall.
  apply (Hall i). apply in_seq. lia.
Qed.

Lemma temper_range z : 0 <= temper z < 2 ^ 32.
Proof. unfold temper. cbv zeta. apply LibstdcxxFacts.word_range. Qed.

(** [operator()] away from the end of the state vector. *)
Lemma next_eq x p :
  (p < 624)%nat -> next (mk_mt19937 x p) = (temper (nth p x 0), mk_mt19937 x (S p)).
Proof.
  intros Hp. unfold next. cbn [M_p M_x].
  destruct (Nat.leb_spec 624 p) as [Hge | _]; [lia |]. reflexivity.
Qed.

Lemma state_yielding_next hi lo :
  0 <= hi < 2 ^ 32 -> 0 <= lo < 2 ^ 32 ->
  exists g1 g2, next (state_yielding hi lo) = (hi, g1) /\ next g1 = (lo, g2).
Proof.
  intros Hhi Hlo. unfold state_yielding.
  exists (mk_mt19937 (untemper hi :: untemper lo :: repeat 0 622) 1).
  exists (mk_mt19937 (untemper hi :: untemper lo :: repeat 0 622) 2).
  rewrite !next_eq by lia. cbn [nth].
  rewrite !temper_untemper by assumption. split; reflexivity.
Qed.

Lemma draw_wide_eq budget inner urange g :
  draw_wide budget inner urange g =
  match draw_narrow inner (urange / (urngrange + 1)) g with
  | None => None
  | Some (high, g) =>
      let tmp := to_size_t ((urngrange + 1) * high) in
      let '(low, g) := next g in
      let ret := to_size_t (tmp + low) in
      if (urange <? ret) || (ret <? tmp) then
        match budget with
        | O => None
        | S budget' => draw_wide budget' inner urange g
        end
      else Some (ret, g)
  end.
Proof. destruct budget; reflexivity. Qed.

Lemma draw_narrow_words inner g : draw_narrow inner (2 ^ 32 - 1) g = Some (next g).
Proof. reflexivity. Qed.

(** The upscaling branch on the range of [RandomSortedInsert]: the next
    two outputs [hi] and [lo] of the generator make the candidate
    [hi * 2^32 + lo], accepted unless it exceeds [2^64 - 2]. *)
Lemma draw_wide_accepts budget inner g hi lo g1 g2 :
  next g = (hi, g1) -> next g1 = (lo, g2) ->
  hi * 2 ^ 32 + lo <> 2 ^ 64 - 1 ->
  draw_wide budget inner (2 ^ 64 - 2) g = Some (hi * 2 ^ 32 + lo, g2).
Proof.
  intros Hhi Hlo Hne.
  pose proof (LibstdcxxFacts.next_range g) as Rhi. rewrite Hhi in Rhi. cbn [fst] in Rhi.
  pose proof (LibstdcxxFacts.next_range g1) as Rlo. rewrite Hlo in Rlo. cbn [fst] in Rlo.
  rewrite draw_wide_eq.
  replace ((2 ^ 64 - 2) / (urngrange + 1)) with (2 ^ 32 - 1) by reflexivity.
  rewrite draw_narrow_words, Hhi. cbv zeta. rewrite Hlo.
  replace (urngrange + 1) with (2 ^ 32) by reflexivity.
  assert (E1 : to_size_t (2 ^ 32 * hi) = 2 ^ 32 * hi).
  { unfold to_size_t. apply Z.mod_small. lia. }
  rewrite E1.
  assert (E2 : to_size_t (2 ^ 32 * hi + lo) = hi * 2 ^ 32 + lo).
  { unfold to_size_t. rewrite Z.mod_small by lia. lia. }
  rewrite E2.
  assert (E3 : (2 ^ 64 - 2 <? hi * 2 ^ 32 + lo) = false) by (apply Z.ltb_ge; lia).
  assert (E4 : (hi * 2 ^ 32 + lo <? 2 ^ 32 * hi) = false) by (apply Z.ltb_ge; lia).
  rewrite E3, E4. reflexivity.
Qed.

(** The candidate [2^64 - 1] is discarded and the next pair is tried. *)
Lemma draw_wide_rejects budget inner g g1 g2 :
  next g = (2 ^ 32 - 1, g1) -> next g1 = (2 ^ 32 - 1, g2) ->
  draw_wide (S budget) inner (2 ^ 64 - 2) g = draw_wide budget inner (2 ^ 64 - 2) g2.
Proof.
  intros Hhi Hlo. rewrite draw_wide_eq.
  replace ((2 ^ 64 - 2) / (urngrange + 1)) with (2 ^ 32 - 1) by reflexivity.
  rewrite draw_narrow_words, Hhi. cbv zeta. rewrite Hlo.
  replace ((2 ^ 64 - 2 <? to_size_t (to_size_t ((urngrange + 1) * (2 ^ 32 - 1)) + (2 ^ 32 - 1)))
           || (to_size_t (to_size_t ((urngrange + 1) * (2 ^ 32 - 1)) + (2 ^ 32 - 1))
               <? to_size_t ((urngrange + 1) * (2 ^ 32 - 1))))
    with true by reflexivity.
  reflexivity.
Qed.

Lemma uniform_int_eq a b g :
  uniform_int a b g = match draw budget a b g with Some r => r | None => (a, g) end.
Proof. reflexivity. Qed.

Lemma draw_eq n a b g :
  draw n a b g =
  match (if urngrange <? to_size_t (b - a) then draw_wide n n (to_size_t (b - a)) g
         else draw_narrow n (to_size_t (b - a)) g) with
  | None => None
  | Some (ret, g) => Some (to_size_t (ret + a), g)
  end.
Proof. reflexivity. Qed.

(** [distribution(generator)] of [RandomSortedInsert] is the upscaling
    branch on [[0, 2^64 - 2]]. *)
Lemma draw_full n g :
  draw n RandomSortedInsert.distribution_a RandomSortedInsert.distribution_b g =
  match draw_wide n n (2 ^ 64 - 2) g with
  | None => None
  | Some (ret, g) => Some (to_size_t (ret + 0), g)
  end.
Proof. reflexivity. Qed.

Lemma uniform_int_accepts g hi lo g1 g2 :
  next g = (hi, g1) -> next g1 = (lo, g2) ->
  hi * 2 ^ 32 + lo <> 2 ^ 64 - 1 ->
  uniform_int RandomSortedInsert.distribution_a RandomSortedInsert.distribution_b g =
  (hi * 2 ^ 32 + lo, g2).
Proof.
  intros Hhi Hlo Hne.
  pose proof (LibstdcxxFacts.next_range g) as Rhi. rewrite Hhi in Rhi. cbn [fst] in Rhi.
  pose proof (LibstdcxxFacts.next_range g1) as Rlo. rewrite Hlo in Rlo. cbn [fst] in Rlo.
  rewrite uniform_int_eq, draw_full, (draw_wide_accepts _ _ Hhi Hlo Hne).
  rewrite Z.add_0_r. unfold to_size_t. rewrite Z.mod_small by lia. reflexivity.
Qed.

(** The retries left to the inner call do not matter on this range. *)
Lemma draw_wide_inner n : forall inner inner' g,
  draw_wide n inner (2 ^ 64 - 2) g = draw_wide n inner' (2 ^ 64 - 2) g.
Proof.
  induction n as [| n IH]; intros inner inner' g.
  - rewrite !(draw_wide_eq 0).
    replace ((2 ^ 64 - 2) / (urngrange + 1)) with (2 ^ 32 - 1) by reflexivity.
    rewrite !draw_narrow_words. reflexivity.
  - rewrite !(draw_wide_eq (S n)).
    replace ((2 ^ 64 - 2) / (urngrange + 1)) with (2 ^ 32 - 1) by reflexivity.
    rewrite !draw_narrow_words.
    destruct (next g) as [hi g1]. cbv zeta. destruct (next g1) as [lo g2].
    rewrite (IH inner inner'). reflexivity.
Qed.

Lemma draw_rejects n g g1 g2 :
  next g = (2 ^ 32 - 1, g1) -> next g1 = (2 ^ 32 - 1, g2) ->
  draw (S n) RandomSortedInsert.distribution_a RandomSortedInsert.distribution_b g =
  draw n RandomSortedInsert.distribution_a RandomSortedInsert.distribution_b g2.
Proof.
  intros Hhi Hlo. rewrite !draw_full, (draw_wide_rejects _ _ Hhi Hlo).
  rewrite (draw_wide_inner n (S n) n). reflexivity.
Qed.

(** A value of [[0, 2^64 - 2]] is [hi * 2^32 + lo] for one pair of 32-bit
    words only. *)
Lemma words_unique val :
  0 <= val <= 2 ^ 64 - 2 ->
  exists hi lo,
    (0 <= hi < 2 ^ 32 /\ 0 <= lo < 2 ^ 32 /\ hi * 2 ^ 32 + lo = val) /\
    forall hi' lo', 0 <= hi' < 2 ^ 32 -> 0 <= lo' < 2 ^ 32 ->
                    hi' * 2 ^ 32 + lo' = val -> hi' = hi /\ lo' = lo.
Proof.
  intros Hval. exists (val / 2 ^ 32), (val mod 2 ^ 32).
  pose proof (Z.div_mod val (2 ^ 32)) as Hdm.
  pose proof (Z.mod_pos_bound val (2 ^ 32)) as Hm.
  assert (Hd : 0 <= val / 2 ^ 32 < 2 ^ 32).
  { split; [apply Z.div_pos; lia | apply Z.div_lt_upper_bound; lia]. }
  split; [lia |].
  intros hi' lo' Hhi Hlo Heq.
  assert (Hq : val / 2 ^ 32 = hi').
  { symmetry. apply (Z.div_unique val (2 ^ 32) hi' lo'); lia. }
  lia.
Qed.
End Mt19937Facts.

Lemma RandomSortedInsert_draw_eq `{StdRandom} {T} (e0 : Env T URBG) :
  RandomSortedInsert.draw e0 =
  Some (fst (uniform_int RandomSortedInsert.distribution_a
                         RandomSortedInsert.distribution_b (generator e0)),
        mkEnv (container e0)
              (snd (uniform_int RandomSortedInsert.distribution_a
                                RandomSortedInsert.distribution_b (generator e0)))
              (calls e0)).
Proof.
  unfold RandomSortedInsert.draw.
  destruct (uniform_int _ _ (generator e0)) as [val g]. reflexivity.
Qed.

Lemma RandomSortedInsert_draw_bounds `{StdRandom} {T} (e0 e1 : Env T URBG) val :
  uniform_int_contract ->
  RandomSortedInsert.draw e0 = Some (val, e1) ->
  RandomSortedInsert.distribution_a <= val <= RandomSortedInsert.distribution_b.
Proof.
  intros Hc Hdraw. rewrite RandomSortedInsert_draw_eq in Hdraw.
  injection Hdraw as <- _. apply Hc; vm_compute; try split; discriminate.
Qed.

(** Over libstdc++, a draw reads the next two outputs of the generator. *)
Lemma RandomSortedInsert_draw_words {T} (e0 : Env T (@URBG libstdcxx)) hi lo g1 g2 :
  Libstdcxx.next (generator e0) = (hi, g1) -> Libstdcxx.next g1 = (lo, g2) ->
  hi * 2 ^ 32 + lo <> 2 ^ 64 - 1 ->
  RandomSortedInsert.draw e0 =
  Some (hi * 2 ^ 32 + lo, mkEnv (container e0) g2 (calls e0)).
Proof.
  intros Hhi Hlo Hne. rewrite RandomSortedInsert_draw_eq.
  change (@uniform_int libstdcxx) with Libstdcxx.uniform_int.
  rewrite (@Mt19937Facts.uniform_int_accepts (generator e0) hi lo g1 g2 Hhi Hlo Hne).
  reflexivity.
Qed.



(** ** The trial runner *)

Lemma elapsed_step x c n :
  elapsed x c (S n) = (now x (c + 1) - now x c) + elapsed x (c + 2) n.
Proof.
  unfold elapsed. cbn [seq map fold_right].
  rewrite <- seq_shift, map_map.
  replace (c + 2 * 0 + 1)%nat with (c + 1)%nat by lia.
  replace (c + 2 * 0)%nat with c by lia.
  f_equal. f_equal. apply map_ext. intros i. f_equal; f_equal; lia.
Qed.

Section TrialFacts.
Context {T G : Type}.
Variable x : Execution.
Variable create : CreatePolicy T.
Variable tests : list (TestPolicy T G).
Variable size : Z.

(** Readings never go back and stay far from the ends of the 64-bit range. *)
Hypothesis now_monotone : forall k, now x k <= now x (S k).
Hypothesis now_range : forall k, 0 <= now x k < 2 ^ 60.

Lemma elapsed_range c n : 0 <= elapsed x c n <= Z.of_nat n * 2 ^ 60.
Proof.
  revert c. induction n as [| n IH]; intros c.
  - unfold elapsed. simpl. lia.
  - rewrite elapsed_step. specialize (IH (c + 2)%nat).
    pose proof (now_monotone c) as Hm. pose proof (now_range c). pose proof (now_range (c + 1)).
    replace (S c) with (c + 1)%nat in Hm by lia. lia.
Qed.

Lemma trials_total n : forall (w w' : World G) (d d' : Z),
  trials n x create tests size (w, d) = Some (w', d') ->
  0 <= d -> d + Z.of_nat n * 2 ^ 60 < 2 ^ 63 ->
  d' = d + elapsed x (clock_calls w) n /\
  clock_calls w' = (clock_calls w + 2 * n)%nat /\
  results w' = results w.
Proof.
  induction n as [| n IH]; intros w w' d d' Hrun Hd Hmax.
  - injection Hrun as <- <-. unfold elapsed. simpl. repeat split; lia.
  - cbn [trials] in Hrun. unfold trial in Hrun.
    destruct (create (to_size_t size) (FilledRandom_v w)) as [c v].
    destruct (run tests (to_size_t size) (mkEnv c (RandomSortedInsert_generator w) []))
      as [[[] e] |]; [| discriminate].
    pose proof (now_monotone (clock_calls w)) as Hm.
    pose proof (now_range (clock_calls w)) as Hr0.
    pose proof (now_range (S (clock_calls w))) as Hr1.
    assert (E1 : to_int64 (now x (S (clock_calls w)) - now x (clock_calls w))
                 = now x (S (clock_calls w)) - now x (clock_calls w)).
    { unfold to_int64. rewrite Z.mod_small; lia. }
    assert (E2 : to_int64 (d + (now x (S (clock_calls w)) - now x (clock_calls w)))
                 = d + (now x (S (clock_calls w)) - now x (clock_calls w))).
    { unfold to_int64. rewrite Z.mod_small; lia. }
    rewrite E1, E2 in Hrun.
    apply IH in Hrun; [| lia | lia].
    cbn [clock_calls results] in Hrun. destruct Hrun as (Hd' & Hc & Hres).
    rewrite elapsed_step.
    replace (clock_calls w + 1)%nat with (S (clock_calls w)) by lia.
    replace (clock_calls w + 2)%nat with (S (S (clock_calls w))) by lia.
    repeat split; [lia | lia | assumption].
Qed.

(** With a [duration] that starts from zero, the sample is the average
    the contract describes: dividing by the repeat count before or after
    the conversion gives the same count. *)
Lemma bench_size_average unit type k (w w' : World G) :
  indeterminate x k = 0 ->
  0 < ticks_per_microsecond x ->
  bench_size x unit create tests type k size w = Some w' ->
  results w' =
    results w ++ [mkSample type (to_string size) (averaged x unit (clock_calls w))] /\
  clock_calls w' = (clock_calls w + 10)%nat.
Proof.
  intros Hzero Hticks Hrun. unfold bench_size in Hrun. rewrite Hzero in Hrun.
  destruct (trials (Z.to_nat REPEAT) x create tests size (w, 0)) as [[w1 d1] |] eqn:Etr;
    [| discriminate].
  apply trials_total in Etr; [| lia | unfold REPEAT; simpl; lia].
  destruct Etr as (Hd & Hc & Hres). injection Hrun as <-.
  unfold new_result. cbn [results clock_calls]. split; [| rewrite Hc; reflexivity].
  rewrite Hres. do 3 f_equal.
  pose proof (elapsed_range (clock_calls w) (Z.to_nat REPEAT)) as Hel.
  rewrite Z.add_0_l in Hd. subst d1. unfold averaged.
  set (total := elapsed x (clock_calls w) (Z.to_nat REPEAT)) in *.
  assert (Htot : 0 <= total < 2 ^ 63) by (unfold REPEAT in Hel; simpl in Hel; lia).
  assert (Hcast : forall q, 0 < q -> to_size_t (Z.quot total q) / REPEAT
                                     = Z.quot (Z.quot total REPEAT) q).
  { intros q Hq. unfold REPEAT, to_size_t.
    rewrite (Z.quot_div_nonneg total q), (Z.quot_div_nonneg total 5) by lia.
    assert (0 <= total / 5) by (apply Z.div_pos; lia).
    rewrite (Z.quot_div_nonneg (total / 5) q) by lia.
    assert (0 <= total / q <= total)
      by (split; [apply Z.div_pos; lia |
             apply Z.div_le_upper_bound; [lia |];
             rewrite <- (Z.mul_1_l total) at 1; apply Z.mul_le_mono_nonneg_r; lia]).
    rewrite Z.mod_small by lia.
    rewrite !Z.div_div by lia. f_equal. lia. }
  unfold duration_cast. destruct unit; apply Hcast; lia.
Qed.
End TrialFacts.

(** C2, at the failing execution: for each of the two sizes five trials
    of one millisecond each are timed, so the average in the contract is
    1 ms both times; the total of the second size starts from what the
    first left in the storage of [duration], and the sample recorded for
    it is 2. *)
Theorem bench_indeterminate_total :
  bench (T:=Small) (G:=unit) stale_execution milliseconds create_Empty [NoOp.run]
        "vector" [100000; 200000] (mkWorld [] tt 0 []) =
  Some (mkWorld [] tt 20 [mkSample "vector" "100000" 1; mkSample "vector" "200000" 2]) /\
  averaged stale_execution milliseconds 0 = 1 /\
  averaged stale_execution milliseconds 10 = 1.
Proof. repeat split; vm_compute; reflexivity. Qed.

(** * The statements at concrete inputs *)

Lemma Small_lawful : Element_lawful (T:=Small).
Proof. intros k. reflexivity. Defined.

Example FilledRandom_make_20 :
  map key (fst (FilledRandom.make (T:=Small) 20 [])) =
  [2; 9; 0; 14; 4; 18; 7; 11; 3; 8; 16; 12; 13; 17; 5; 6; 10; 19; 15; 1].
Proof. vm_compute. reflexivity. Qed.

Example RandomSortedInsert_run_3 :
  option_map (fun r => map key (container (snd r))) (RandomSortedInsert.run 3 empty_vector) =
  Some [2342493223442167775; 15028999435905310454; 16708911996216745849].
Proof. vm_compute. reflexivity. Qed.

Example Insert_body_three_keys :
  option_map (fun r => map key (container (snd r))) (Insert.body 3 0 three_keys) =
  Some [2; 3; 0; 1].
Proof. vm_compute. reflexivity. Qed.

Example Erase_body_three_keys :
  option_map (fun r => map key (container (snd r))) (Erase.body 0 three_keys) =
  Some [2; 1].
Proof. vm_compute. reflexivity. Qed.

Lemma Erase_run_spec_witness :
  holds_keys (container thousand_keys) 0 1000 /\
  exists e' removed,
    Erase.run 1001 thousand_keys = Some (tt, e') /\
    (length (container e') + 1000 = length (container thousand_keys))%nat /\
    Permutation (container thousand_keys) (removed ++ container e') /\
    map key removed = zrange 0 1000.
Proof.
  assert (Hk : holds_keys (container thousand_keys) 0 1000).
  { intros k Hk. exists (brace_init k). split; [| reflexivity].
    right. apply in_map, zrange_In. lia. }
  split; [exact Hk |].
  exact (proj1 (proj2 (Erase_run_spec 1001 thousand_keys)) Hk).
Defined.

Lemma Insert_run_spec_witness :
  Element_lawful (T:=Small) /\
  Z.of_nat (length (container three_keys)) = 3 /\
  3 <= PTRDIFF_MAX /\
  exists e',
    Insert.run 3 three_keys = Some (tt, e') /\
    Z.of_nat (length (container e')) = 3 + 1000 /\
    Permutation (container e') (map (inserted 3) (zrange 0 1000) ++ container three_keys) /\
    map key (map (inserted (T:=Small) 3) (zrange 0 1000)) = map (fun i => 3 + i) (zrange 0 1000).
Proof.
  assert (H3 : 3 <= PTRDIFF_MAX) by (vm_compute; discriminate).
  split; [exact Small_lawful |]. split; [reflexivity |]. split; [exact H3 |].
  exact (proj2 (@Insert_run_spec Small _ unit 3 three_keys Small_lawful eq_refl H3)).
Defined.

Lemma FilledRandom_make_keys_witness :
  Element_lawful (T:=Small) /\ shuffle_contract /\ FilledRandom.reachable [] /\
  0 <= 20 <= INT_MAX /\
  Z.of_nat (length (fst (FilledRandom.make (T:=Small) 20 []))) = 20 /\
  NoDup (map key (fst (FilledRandom.make (T:=Small) 20 []))) /\
  (forall k, In k (map key (fst (FilledRandom.make (T:=Small) 20 []))) <-> 0 <= k < 20).
Proof.
  assert (H20 : 0 <= 20 <= INT_MAX) by (vm_compute; split; discriminate).
  pose proof (@FilledRandom_make_keys Small _ libstdcxx 20 [] Small_lawful
                LibstdcxxFacts.shuffle_meets_contract FilledRandom.reachable_start H20)
    as (Hlen & _ & Hnodup & Hin & _).
  split; [exact Small_lawful |]. split; [exact LibstdcxxFacts.shuffle_meets_contract |].
  split; [constructor |]. split; [exact H20 |].
  split; [exact Hlen |]. split; [exact Hnodup | exact Hin].
Defined.

Lemma FilledRandom_cache_witness :
  Element_lawful (T:=Small) /\ FilledRandom.reachable (H:=libstdcxx) [] /\
  (let first : list Small * list Z := FilledRandom.make 100 [] in
   let second : list Small * list Z := FilledRandom.make 200 (snd first) in
   negb (Z.of_nat (length (snd first)) =? 200) = true /\
   snd second = shuffle (iota 200 0) mt19937_default /\
   length (fst second) = 200%nat /\
   Permutation (map key (fst second)) (zrange 0 200) /\
   ~ (exists suffix, map key (fst second) = map key (fst first) ++ suffix)).
Proof.
  split; [exact Small_lawful |]. split; [constructor |].
  exact (proj2 (@FilledRandom_cache Small _ [] Small_lawful FilledRandom.reachable_start)).
Defined.

Lemma FilledRandom_deterministic_witness :
  shuffle_contract /\
  nth 2 (FilledRandom.make_all (T:=Small) [100; 200; 100] []) [] =
  nth 0 (FilledRandom.make_all (T:=Small) [100; 200; 100] []) [].
Proof.
  split; [exact LibstdcxxFacts.shuffle_meets_contract |].
  exact (proj2 (proj2 (proj2 (@FilledRandom_deterministic Small _ libstdcxx
                                LibstdcxxFacts.shuffle_meets_contract)))).
Defined.

Lemma Sort_run_spec_witness :
  sort_contract (T:=Small) std_sort /\ sort_contract (T:=Small) list_sort /\
  exists e',
    Sort.run std_list 3 three_keys = Some (tt, e') /\
    ascending (container e') /\
    length (container e') = length (container three_keys) /\
    Permutation (container three_keys) (container e').
Proof.
  split; [exact insertion_sort_meets_contract |].
  split; [exact insertion_sort_meets_contract |].
  destruct (@Sort_run_spec Small _ insertion_StdSort unit std_list 3 three_keys
              insertion_sort_meets_contract insertion_sort_meets_contract)
    as (e' & Hrun & Hasc & _ & Hlen & Hperm & _).
  exists e'. repeat split; assumption.
Defined.

Lemma RandomSortedInsert_sorted_witness :
  Element_lawful (T:=Small) /\ 0 <= 3 /\ container empty_vector = [] /\
  exists e' vals,
    RandomSortedInsert.run 3 empty_vector = Some (tt, e') /\
    Z.of_nat (length (container e')) = 3 /\
    ascending (container e') /\
    Sorted Z.le (map key (container e')) /\
    draws (Z.to_nat 3) (generator empty_vector) = (vals, generator e') /\
    Z.of_nat (length vals) = 3 /\
    container e' = fold_left sorted_insert vals [] /\
    Permutation (map key (container e')) vals /\
    calls e' = calls empty_vector ++ passes_calls [] vals.
Proof.
  assert (H3 : 0 <= 3) by (vm_compute; discriminate).
  split; [exact Small_lawful |]. split; [exact H3 |]. split; [reflexivity |].
  exact (proj2 (@RandomSortedInsert_sorted Small _ libstdcxx 3 empty_vector
                  Small_lawful H3 eq_refl)).
Defined.


(** * Further properties of the policies and of the runner *)

(** ** tag *)

Lemma chars_replace_if pred new_value name :
  chars (replace_if pred new_value name) =
  map (fun c => if pred c then new_value else c) (chars name).
Proof. induction name as [| c rest IH]; simpl; [| rewrite IH]; reflexivity. Qed.

Lemma chars_length name : length (chars name) = String.length name.
Proof. induction name as [| c rest IH]; simpl; [| rewrite IH]; reflexivity. Qed.

Lemma chars_inj s1 : forall s2, chars s1 = chars s2 -> s1 = s2.
Proof.
  induction s1 as [| c rest IH]; intros [| c' rest'] E; simpl in E; try discriminate.
  - reflexivity.
  - injection E as -> E. f_equal. apply IH, E.
Qed.

Lemma chars_append s1 s2 : chars (s1 ++ s2)%string = chars s1 ++ chars s2.
Proof. induction s1 as [| c rest IH]; simpl; [| rewrite IH]; reflexivity. Qed.

Lemma tag_chars name :
  chars (tag name) = map (fun c => if istag c then c else "_"%char) (chars name).
Proof.
  unfold tag. rewrite chars_replace_if. apply map_ext. intros c.
  destruct (istag c); reflexivity.
Qed.

Lemma tag_length name : String.length (tag name) = String.length name.
Proof. rewrite <- !chars_length, tag_chars. apply length_map. Qed.

Lemma tag_istag name : Forall (fun c => istag c = true) (chars (tag name)).
Proof.
  rewrite tag_chars. apply Forall_forall. intros c Hc.
  apply in_map_iff in Hc. destruct Hc as (c0 & <- & _).
  destruct (istag c0) eqn:E; [exact E | reflexivity].
Qed.

Lemma tag_fixed name : Forall (fun c => istag c = true) (chars name) -> tag name = name.
Proof.
  intros Hs. apply chars_inj. rewrite tag_chars.
  transitivity (map (fun c => c) (chars name)); [| apply map_id].
  apply map_ext_in. intros c Hc.
  rewrite Forall_forall in Hs. rewrite (Hs c Hc). reflexivity.
Qed.

Lemma tag_append s1 s2 : tag (s1 ++ s2) = (tag s1 ++ tag s2)%string.
Proof.
  apply chars_inj. rewrite chars_append, !tag_chars, chars_append. apply map_app.
Qed.

(** X1.  [tag] keeps the length of the name, leaves every letter, digit
    and underscore where it is and puts an underscore in place of any other
    character; so the result holds only letters, digits and underscores,
    tagging it again changes nothing, and a name is returned as it is
    exactly when it holds no other character. *)
Theorem tag_spec (name : string) :
  String.length (tag name) = String.length name /\
  chars (tag name) = map (fun c => if istag c then c else "_"%char) (chars name) /\
  Forall (fun c => istag c = true) (chars (tag name)) /\
  tag (tag name) = tag name /\
  (tag name = name <-> Forall (fun c => istag c = true) (chars name)).
Proof.
  split; [apply tag_length |]. split; [apply tag_chars |]. split; [apply tag_istag |].
  split; [apply tag_fixed, tag_istag |].
  split; [intros E; rewrite <- E; apply tag_istag | apply tag_fixed].
Qed.

(** X2.  The identifier [new_graph] declares a graph under is the title
    (test name, [" - "], type name) with every character other than a
    letter, a digit or an underscore replaced by an underscore: it has the
    length of the title, is made of such characters only, and starts with
    the test name whenever the test name itself is made of them. *)
Theorem new_graph_id (type_name testName unit : string) :
  let g := new_graph type_name testName unit in
  graph_title g = (testName ++ " - " ++ type_name)%string /\
  graph_unit g = unit /\
  graph_id g = tag (graph_title g) /\
  String.length (graph_id g) =
    (String.length testName + 3 + String.length type_name)%nat /\
  Forall (fun c => istag c = true) (chars (graph_id g)) /\
  (Forall (fun c => istag c = true) (chars testName) ->
   graph_id g = (testName ++ "___" ++ tag type_name)%string).
Proof.
  intros g. subst g. unfold new_graph. cbn [graph_id graph_title graph_unit].
  split; [reflexivity |]. split; [reflexivity |]. split; [reflexivity |].
  split; [| split].
  - rewrite tag_length, <- !chars_length, !chars_append, !length_app. simpl. lia.
  - apply tag_istag.
  - intros Hname. rewrite !tag_append, (@tag_fixed testName Hname). reflexivity.
Qed.

(** ** Filling at the back and at the front *)

Lemma repeat_snoc {A} (x : A) n l : repeat x n ++ x :: l = x :: repeat x n ++ l.
Proof. induction n as [| n IH]; simpl; [| rewrite IH]; reflexivity. Qed.

Section FillFacts.
Context {T G : Type}.
Variable x : T.

Lemma push_back_loop n : forall i (e : Env T G),
  for_loop n i (fun _ => push_back x) e =
  Some (tt, mkEnv (container e ++ repeat x n) (generator e)
                  (calls e ++ repeat (call_push_back x) n)).
Proof.
  induction n as [| n IH]; intros i e.
  - simpl. rewrite !app_nil_r. destruct e; reflexivity.
  - cbn [for_loop]. unfold bind at 1. unfold push_back at 1. rewrite IH.
    cbn [container generator calls repeat]. rewrite <- !app_assoc. reflexivity.
Qed.

Lemma push_front_loop n : forall i (e : Env T G),
  for_loop n i (fun _ => push_front x) e =
  Some (tt, mkEnv (repeat x n ++ container e) (generator e)
                  (calls e ++ repeat (call_insert 0 x) n)).
Proof.
  induction n as [| n IH]; intros i e.
  - simpl. rewrite app_nil_r. destruct e; reflexivity.
  - cbn [for_loop]. unfold bind at 1. unfold push_front at 1. rewrite IH.
    cbn [container generator calls repeat]. rewrite repeat_snoc, <- app_assoc. reflexivity.
Qed.

Lemma insert_begin_loop n : forall i (e : Env T G),
  for_loop n i (fun _ => insert 0 x) e =
  Some (tt, mkEnv (repeat x n ++ container e) (generator e)
                  (calls e ++ repeat (call_insert 0 x) n)).
Proof.
  induction n as [| n IH]; intros i e.
  - simpl. rewrite app_nil_r. destruct e; reflexivity.
  - cbn [for_loop]. unfold bind at 1. unfold insert at 1. cbn [Nat.leb]. rewrite IH.
    cbn [container generator calls repeat]. unfold insert_before. cbn [firstn skipn app].
    rewrite repeat_snoc, <- app_assoc. reflexivity.
Qed.
End FillFacts.

(** X3.  [FillBack::run] never faults and leaves the container followed
    by [size] copies of the value-initialised element, so [size] elements
    longer; [EmplaceBack::run] leaves the same container.  On the empty
    container of [Empty::make] the result is [size] elements, all equal to
    the value-initialised one. *)
Theorem FillBack_run_spec `{Element T} {G : Type} (size : Z) (e : Env T G) :
  exists e',
    FillBack.run size e = Some (tt, e') /\
    EmplaceBack.run size e = Some (tt, e') /\
    container e' = container e ++ repeat value_init (Z.to_nat size) /\
    length (container e') = (length (container e) + Z.to_nat size)%nat /\
    generator e' = generator e /\
    (container e = Empty.make size ->
     container e' = repeat value_init (Z.to_nat size) /\
     Forall (fun v => v = value_init) (container e')).
Proof.
  eexists. split; [apply push_back_loop |]. split; [apply push_back_loop |].
  cbn [container generator]. split; [reflexivity |].
  split; [rewrite length_app, repeat_length; reflexivity |]. split; [reflexivity |].
  intros ->. cbn [Empty.make app]. split; [reflexivity |].
  apply Forall_forall. intros v Hv. eapply repeat_spec; exact Hv.
Qed.

(** X4.  For every container kind [FillFront::run] and [EmplaceFront::run]
    never fault and leave [size] copies of the value-initialised element
    followed by the container as it was: the specialisation for
    [std::vector], inserting at [begin(c)], gives the sequence the primary
    template gives with [push_front]. *)
Theorem FillFront_run_spec `{Element T} {G : Type}
    (kind : ContainerKind) (size : Z) (e : Env T G) :
  exists e',
    FillFront.run kind size e = Some (tt, e') /\
    EmplaceFront.run kind size e = Some (tt, e') /\
    FillFront.run std_vector size e = FillFront.run std_list size e /\
    container e' = repeat value_init (Z.to_nat size) ++ container e /\
    length (container e') = (Z.to_nat size + length (container e))%nat /\
    generator e' = generator e.
Proof.
  exists (mkEnv (repeat value_init (Z.to_nat size) ++ container e) (generator e)
                (calls e ++ repeat (call_insert 0 value_init) (Z.to_nat size))).
  assert (Hv : forall k, FillFront.run k size e =
                         Some (tt, mkEnv (repeat value_init (Z.to_nat size) ++ container e)
                                         (generator e)
                                         (calls e ++ repeat (call_insert 0 value_init)
                                                            (Z.to_nat size)))).
  { intros [| |]; [apply insert_begin_loop | apply push_front_loop | apply push_front_loop]. }
  split; [apply Hv |].
  split; [destruct kind; [apply insert_begin_loop | apply push_front_loop
                          | apply push_front_loop] |].
  split; [rewrite !Hv; reflexivity |]. cbn [container generator].
  split; [reflexivity |]. split; [| reflexivity].
  rewrite length_app, repeat_length. reflexivity.
Qed.

(** ** RemoveErase, and Erase on distinct keys *)

Lemma filter_filter {A} (f g : A -> bool) l :
  filter f (filter g l) = filter (fun x => g x && f x) l.
Proof.
  induction l as [| x l IH]; simpl; [reflexivity |].
  destruct (g x); simpl; [destruct (f x) |]; rewrite IH; reflexivity.
Qed.

Lemma filter_all {A} (f : A -> bool) l : Forall (fun x => f x = true) l -> filter f l = l.
Proof.
  induction 1 as [| x l Hx Hl IH]; simpl; [reflexivity |]. rewrite Hx, IH. reflexivity.
Qed.

Section RemoveEraseFacts.
Context `{Element T} {G : Type}.

(** The elements whose key is outside [[i, i + n)]. *)
Definition outside (i : Z) (n : nat) (v : T) : bool :=
  negb ((i <=? key v) && (key v <? i + Z.of_nat n)).

Lemma outside_spec i n (v : T) :
  outside i n v = true <-> ~ i <= key v < i + Z.of_nat n.
Proof.
  unfold outside. rewrite negb_true_iff, andb_false_iff, Z.leb_gt, Z.ltb_ge. lia.
Qed.

Lemma outside_none i (c : list T) : filter (outside i 0) c = c.
Proof.
  apply filter_all. apply Forall_forall. intros v _.
  unfold outside. apply negb_true_iff, andb_false_iff.
  destruct (Z.leb_spec i (key v)); [right; apply Z.ltb_ge; lia | left; reflexivity].
Qed.

Lemma outside_step i n (c : list T) :
  filter (outside (i + 1) n) (filter (fun v => negb (holds (key_eq i) v)) c) =
  filter (outside i (S n)) c.
Proof.
  rewrite filter_filter. apply filter_ext. intros v. unfold outside. cbn [holds].
  destruct (Z.eqb_spec (key v) i), (Z.leb_spec (i + 1) (key v)),
    (Z.ltb_spec (key v) (i + 1 + Z.of_nat n)), (Z.leb_spec i (key v)),
    (Z.ltb_spec (key v) (i + Z.of_nat (S n))); try reflexivity; lia.
Qed.

Lemma RemoveErase_loop n : forall i (e : Env T G),
  exists log,
    for_loop n i (fun i => remove_erase (key_eq i)) e =
    Some (tt, mkEnv (filter (outside i n) (container e)) (generator e) log).
Proof.
  induction n as [| n IH]; intros i e.
  - exists (calls e). simpl. unfold ret. rewrite outside_none. destruct e; reflexivity.
  - cbn [for_loop]. unfold bind at 1. unfold remove_erase at 1.
    match goal with |- context [for_loop n (i + 1) _ ?e1] =>
      destruct (IH (i + 1) e1) as (log & ->) end.
    cbn [container generator]. rewrite outside_step. eauto.
Qed.

Lemma outside_erased_key (v : T) : outside 0 1000 v = negb (erased_key (key v)).
Proof. reflexivity. Qed.

(** With distinct keys, erasing the first element of key [i] removes all
    elements of key [i]. *)
Lemma erase_first_filter i (c : list T) :
  NoDup (map key c) ->
  (first_match (holds (key_eq i)) c < length c)%nat ->
  erase_at (first_match (holds (key_eq i)) c) c =
  filter (fun v => negb (holds (key_eq i) v)) c.
Proof.
  unfold erase_at.
  induction c as [| x c IH]; intros Hnd Hlt; [simpl in Hlt; lia |].
  cbn [map] in Hnd. inversion Hnd as [| ? ? Hnotin Hnd']; subst.
  cbn [first_match filter]. destruct (holds (key_eq i) x) eqn:E; cbn [negb].
  - cbn [firstn skipn app]. symmetry. apply filter_all.
    apply Forall_forall. intros y Hy. apply negb_true_iff. cbn in *.
    apply Z.eqb_eq in E. apply Z.eqb_neq. intros Ey. apply Hnotin.
    rewrite E, <- Ey. apply in_map, Hy.
  - cbn [firstn skipn app]. f_equal. apply IH; [exact Hnd' |].
    cbn [first_match length] in Hlt. rewrite E in Hlt. lia.
Qed.

Lemma NoDup_keys_filter (f : T -> bool) (c : list T) :
  NoDup (map key c) -> NoDup (map key (filter f c)).
Proof.
  induction c as [| x c IH]; intros Hnd; [constructor |].
  cbn [map] in Hnd. inversion Hnd as [| ? ? Hnotin Hnd']; subst.
  cbn [filter]. destruct (f x); [| apply IH, Hnd'].
  cbn [map]. constructor; [| apply IH, Hnd'].
  intros Hin. apply Hnotin. apply in_map_iff in Hin. destruct Hin as (y & Ey & Hy).
  apply filter_In in Hy. rewrite <- Ey. apply in_map, Hy.
Qed.

Lemma Erase_loop_distinct n : forall i (e : Env T G),
  NoDup (map key (container e)) ->
  holds_keys (container e) i n ->
  exists log,
    for_loop n i Erase.body e =
    Some (tt, mkEnv (filter (outside i n) (container e)) (generator e) log).
Proof.
  induction n as [| n IH]; intros i e Hnd Hk.
  - exists (calls e). simpl. unfold ret. rewrite outside_none. destruct e; reflexivity.
  - assert (Hlt : (first_match (holds (key_eq i)) (container e) < length (container e))%nat).
    { apply key_eq_found, Hk. lia. }
    cbn [for_loop]. unfold bind at 1. rewrite (Erase_body_found i e Hlt).
    rewrite (@erase_first_filter i (container e) Hnd Hlt).
    match goal with |- context [for_loop n (i + 1) _ ?e1] =>
      destruct (IH (i + 1) e1) as (log & ->) end.
    + cbn [container]. apply NoDup_keys_filter, Hnd.
    + cbn [container]. intros k Hkr. destruct (Hk k) as (y & Hy & Hyk); [lia |].
      exists y. split; [| exact Hyk]. apply filter_In. split; [exact Hy |].
      cbn. apply negb_true_iff, Z.eqb_neq. lia.
    + cbn [container generator]. rewrite outside_step. eauto.
Qed.
End RemoveEraseFacts.

(** X5.  [RemoveErase::run] never faults, whatever the container holds:
    it takes out every element whose key is in [[0, 1000)] and keeps the
    others in their order, so no key of [[0, 1000)] is left and a second
    run changes nothing. *)
Theorem RemoveErase_run_spec `{Element T} {G : Type} (size : Z) (e : Env T G) :
  exists e',
    RemoveErase.run size e = Some (tt, e') /\
    container e' = filter (fun v => negb (erased_key (key v))) (container e) /\
    generator e' = generator e /\
    Forall (fun v => ~ 0 <= key v < 1000) (container e') /\
    (length (container e') <= length (container e))%nat /\
    exists e'', RemoveErase.run size e' = Some (tt, e'') /\ container e'' = container e'.
Proof.
  destruct (RemoveErase_loop (Z.to_nat 1000) 0 e) as (log & Hrun).
  eexists. split; [exact Hrun |]. cbn [container generator].
  assert (Hout : Forall (fun v : T => ~ 0 <= key v < 1000)
                        (filter (outside 0 (Z.to_nat 1000)) (container e))).
  { apply Forall_forall. intros v Hv. apply filter_In in Hv. destruct Hv as [_ Hv].
    apply outside_spec in Hv. exact Hv. }
  split; [reflexivity |]. split; [reflexivity |]. split; [exact Hout |].
  split; [apply filter_length_le |].
  match goal with |- context [RemoveErase.run size ?e1] =>
    destruct (RemoveErase_loop (Z.to_nat 1000) 0 e1) as (log' & Hrun') end.
  eexists. split; [exact Hrun' |]. cbn [container].
  apply filter_all. eapply Forall_impl; [| exact Hout].
  intros v Hv. apply (outside_spec 0 (Z.to_nat 1000)). exact Hv.
Qed.

(** X6.  On a container whose keys are distinct and include every key of
    [[0, 1000)], [Erase::run] and [RemoveErase::run] both return, with the
    same container: the one holding, in their order, the elements whose key
    is not in [[0, 1000)]. *)
Theorem Erase_RemoveErase_agree `{Element T} {G : Type} (size : Z) (e : Env T G) :
  NoDup (map key (container e)) ->
  holds_keys (container e) 0 1000 ->
  exists e1 e2,
    Erase.run size e = Some (tt, e1) /\
    RemoveErase.run size e = Some (tt, e2) /\
    container e1 = container e2 /\
    container e1 = filter (fun v => negb (erased_key (key v))) (container e) /\
    generator e1 = generator e2.
Proof.
  intros Hnd Hk.
  destruct (@Erase_loop_distinct T _ G (Z.to_nat 1000) 0 e Hnd Hk) as (log1 & Hrun1).
  destruct (RemoveErase_loop (Z.to_nat 1000) 0 e) as (log2 & Hrun2).
  do 2 eexists. split; [exact Hrun1 |]. split; [exact Hrun2 |].
  repeat split.
Qed.

(** ** The policies on the containers FilledRandom makes *)

Lemma zrange_sorted from n : Sorted Z.le (zrange from n).
Proof.
  revert from. induction n as [| n IH]; intros from; simpl; constructor; [apply IH |].
  destruct n; simpl; constructor. lia.
Qed.

Lemma first_match_nth {T} (p : T -> bool) (l : list T) :
  (first_match p l < length l)%nat ->
  exists v, nth_error l (first_match p l) = Some v /\ p v = true.
Proof.
  induction l as [| x l IH]; simpl; [lia |].
  destruct (p x) eqn:E; [intros _; exists x; auto |].
  intros Hlt. apply IH. lia.
Qed.

Lemma first_match_app {T} (p : T -> bool) (a b : list T) :
  Forall (fun x => p x = false) a ->
  first_match p (a ++ b) = (length a + first_match p b)%nat.
Proof.
  induction 1 as [| x a Hx Ha IH]; simpl; [reflexivity |]. rewrite Hx, IH. reflexivity.
Qed.

Lemma insert_before_app {T} (a b : list T) k (x : T) :
  insert_before (length a + k) x (a ++ b) = a ++ insert_before k x b.
Proof.
  unfold insert_before.
  rewrite firstn_app, skipn_app, firstn_all2, skipn_all2 by lia.
  replace (length a + k - length a)%nat with k by lia.
  cbn [app]. rewrite <- app_assoc. reflexivity.
Qed.

Section OnFilledRandom.
Context `{Element T} `{StdRandom}.
Hypothesis lawful : Element_lawful.
Hypothesis shuffle_permutes : shuffle_contract.

(** What the container of [FilledRandom::make(size)] holds. *)
Lemma made_keys size v :
  FilledRandom.reachable v -> 0 <= size <= INT_MAX ->
  let c : list T := fst (FilledRandom.make size v) in
  Permutation (zrange 0 (Z.to_nat size)) (map key c) /\
  NoDup (map key c) /\
  (forall k, In k (map key c) <-> 0 <= k < size) /\
  length c = Z.to_nat size.
Proof.
  intros Hv Hsize c. subst c.
  rewrite (make_reachable shuffle_permutes Hv) by lia. cbn [fst].
  assert (Hkeys : map key (map (brace_init (T:=T)) (FilledRandom.permutation size))
                  = FilledRandom.permutation size).
  { rewrite map_map. erewrite map_ext; [apply map_id | exact lawful]. }
  rewrite Hkeys. pose proof (permutation_keys shuffle_permutes Hsize) as Hperm.
  split; [exact Hperm |].
  split; [eapply Permutation_NoDup; [exact Hperm | apply zrange_NoDup] |].
  split; [| rewrite length_map; apply (permutation_length shuffle_permutes)].
  intros k. split; intros Hk.
  - apply Permutation_sym in Hperm. apply (Permutation_in _ Hperm) in Hk.
    apply zrange_In in Hk. lia.
  - apply (Permutation_in _ Hperm). apply zrange_In. lia.
Qed.

Lemma made_holds_keys size v n :
  FilledRandom.reachable v -> 0 <= size <= INT_MAX -> Z.of_nat n <= size ->
  holds_keys (fst (FilledRandom.make (T:=T) size v)) 0 n.
Proof.
  intros Hv Hsize Hn k Hk.
  destruct (made_keys Hv Hsize) as (_ & _ & Hin & _).
  assert (Hk' : In k (map key (fst (FilledRandom.make (T:=T) size v)))) by (apply Hin; lia).
  apply in_map_iff in Hk'. destruct Hk' as (x & Hx & Hxin). exists x. auto.
Qed.
End OnFilledRandom.

(** X7.  On the container [FilledRandom::make(size)] returns, for any
    size from 1000 up (as in every scenario of the benchmark that uses it),
    [Erase::run] does not fault: it returns the elements of key 1000 and
    above in the order the container had them, [size - 1000] elements whose
    keys are exactly [1000, ..., size-1]. *)
Theorem FilledRandom_Erase `{Element T} `{StdRandom} {G : Type}
    (size : Z) (v : list Z) (g : G) (log : list (Call T)) :
  Element_lawful -> shuffle_contract ->
  FilledRandom.reachable v ->
  1000 <= size <= INT_MAX ->
  let c : list T := fst (FilledRandom.make size v) in
  exists e',
    Erase.run size (mkEnv c g log) = Some (tt, e') /\
    container e' = filter (fun x => negb (erased_key (key x))) c /\
    generator e' = g /\
    Z.of_nat (length (container e')) = size - 1000 /\
    (forall k, In k (map key (container e')) <-> 1000 <= k < size).
Proof.
  intros Hlaw Hsh Hv Hsize c.
  assert (Hsize' : 0 <= size <= INT_MAX) by lia.
  destruct (made_keys Hlaw Hsh Hv Hsize') as (_ & Hnd & Hin & Hlen). fold c in Hnd, Hin, Hlen.
  assert (Hk : holds_keys c 0 (Z.to_nat 1000)).
  { apply (@made_holds_keys T _ _ Hlaw Hsh size v (Z.to_nat 1000) Hv Hsize'). lia. }
  destruct (@Erase_loop_distinct T _ G (Z.to_nat 1000) 0 (mkEnv c g log) Hnd Hk)
    as (log1 & Hrun).
  destruct (@Erase_loop_ok T _ G (Z.to_nat 1000) 0 (mkEnv c g log) Hk)
    as (e2 & removed & Hrun2 & _ & Hlen2 & _).
  eexists. split; [exact Hrun |]. cbn [container generator].
  split; [reflexivity |]. split; [reflexivity |].
  split.
  - rewrite Hrun in Hrun2. injection Hrun2 as <-. cbn [container] in Hlen2.
    apply (f_equal Z.of_nat) in Hlen2. rewrite Nat2Z.inj_add, Hlen in Hlen2.
    rewrite !Z2Nat.id in Hlen2 by lia.
    change (Z.to_nat 1000) with (Pos.to_nat 1000). lia.
  - intros k. rewrite in_map_iff. split.
    + intros (x & <- & Hx). apply filter_In in Hx. destruct Hx as [Hx Hout].
      apply outside_spec in Hout. pose proof (proj1 (Hin (key x)) (in_map key _ _ Hx)). lia.
    + intros Hk'. assert (Hk'' : In k (map key c)) by (apply Hin; lia).
      apply in_map_iff in Hk''. destruct Hk'' as (x & Hxk & Hx).
      exists x. split; [exact Hxk |]. apply filter_In. split; [exact Hx |].
      apply outside_spec. lia.
Qed.

(** X8.  On the container [FilledRandom::make(size)] returns, every one
    of the [size] scans of [Find::run] stops at an element: the scan for
    key [i] returns a position inside the container, where the element of
    key [i] is. *)
Theorem FilledRandom_Find `{Element T} `{StdRandom} {G : Type}
    (size : Z) (v : list Z) (g : G) :
  Element_lawful -> shuffle_contract ->
  FilledRandom.reachable v ->
  0 <= size <= INT_MAX ->
  let c : list T := fst (FilledRandom.make size v) in
  Find.run size (mkEnv c g []) =
    Some (tt, mkEnv c g (map (scan_call c) (zrange 0 (Z.to_nat size)))) /\
  forall i, 0 <= i < size ->
    exists it x,
      scan_call c i = call_find_if (key_eq i) it /\
      (it < length c)%nat /\
      nth_error c it = Some x /\ key x = i.
Proof.
  intros Hlaw Hsh Hv Hsize c. split; [apply (Find_loop (Z.to_nat size) 0 (mkEnv c g [])) |].
  intros i Hi.
  assert (Hlt : (first_match (holds (key_eq i)) c < length c)%nat).
  { apply key_eq_found. apply (@made_holds_keys T _ _ Hlaw Hsh size v (Z.to_nat size) Hv Hsize);
      lia. }
  destruct (first_match_nth _ _ Hlt) as (x & Hnth & Hx).
  exists (first_match (holds (key_eq i)) c), x.
  split; [reflexivity |]. split; [exact Hlt |]. split; [exact Hnth |].
  apply Z.eqb_eq. exact Hx.
Qed.

(** X10.  Sorting the container [FilledRandom::make(size)] returns gives,
    for each container kind, the keys [0, 1, ..., size-1] in this order. *)
Theorem FilledRandom_Sort `{Element T} `{StdRandom} `{StdSort T} {G : Type}
    (kind : ContainerKind) (size : Z) (v : list Z) (g : G) (log : list (Call T)) :
  Element_lawful -> shuffle_contract ->
  sort_contract std_sort -> sort_contract list_sort ->
  FilledRandom.reachable v ->
  0 <= size <= INT_MAX ->
  exists e',
    Sort.run kind size (mkEnv (fst (FilledRandom.make size v)) g log) = Some (tt, e') /\
    map key (container e') = zrange 0 (Z.to_nat size) /\
    generator e' = g.
Proof.
  intros Hlaw Hsh Hstd Hlist Hv Hsize.
  destruct (made_keys Hlaw Hsh Hv Hsize) as (Hperm & _).
  set (c := fst (FilledRandom.make size v)) in *.
  set (sort := match kind with
               | std_list => list_sort
               | std_vector | std_deque => std_sort
               end).
  assert (Hsort : sort_contract sort) by (destruct kind; assumption).
  exists (mkEnv (sort c) g (log ++ [call_sort])).
  split; [unfold Sort.run; destruct kind; reflexivity |]. cbn [container generator].
  split; [| reflexivity].
  destruct (Hsort c) as [Hp Ha].
  apply sorted_le_unique; [apply ascending_keys, Ha | apply zrange_sorted |].
  etransitivity; [apply Permutation_map; symmetry; exact Hp | symmetry; exact Hperm].
Qed.

Section InsertOnDistinctKeys.
Context `{Element T} {G : Type}.
Variable size : Z.
Hypothesis lawful : Element_lawful.
Hypothesis size_range : 0 <= size <= PTRDIFF_MAX.

Lemma with_inserted_other n (v : T) :
  key v <> n -> with_inserted size (n + 1) v = with_inserted size n v.
Proof.
  intros Hv. unfold with_inserted.
  destruct (Z.ltb_spec (key v) (n + 1)), (Z.ltb_spec (key v) n); try reflexivity; lia.
Qed.

Lemma with_inserted_no_match n (v : T) :
  key v <> n -> 0 <= key v < size -> n < size ->
  Forall (fun x => holds (key_eq n) x = false) (with_inserted size n v).
Proof.
  unfold PTRDIFF_MAX in size_range.
  intros Hv Hrange Hn. unfold with_inserted.
  assert (Hold : holds (key_eq n) v = false) by (apply Z.eqb_neq; exact Hv).
  destruct (key v <? n); repeat constructor; try exact Hold.
  cbn. rewrite lawful. apply Z.eqb_neq.
  unfold to_size_t. rewrite Z.mod_small; lia.
Qed.

Lemma flat_map_with_inserted_other n (c : list T) :
  Forall (fun v => key v <> n) c ->
  flat_map (with_inserted size (n + 1)) c = flat_map (with_inserted size n) c.
Proof.
  induction 1 as [| v c Hv Hc IH]; simpl; [reflexivity |].
  rewrite IH, with_inserted_other by exact Hv. reflexivity.
Qed.

Lemma insert_at_target n (c : list T) :
  NoDup (map key c) ->
  Forall (fun v => 0 <= key v < size) c ->
  In n (map key c) ->
  insert_before (first_match (holds (key_eq n)) (flat_map (with_inserted size n) c))
                (inserted size n) (flat_map (with_inserted size n) c) =
  flat_map (with_inserted size (n + 1)) c.
Proof.
  induction c as [| v c IH]; intros Hnd Hrange Hin; [destruct Hin |].
  cbn [map] in Hnd, Hin. inversion Hnd as [| ? ? Hnotin Hnd']; subst.
  inversion Hrange as [| ? ? Hv Hrange']; subst.
  cbn [flat_map].
  destruct (Z.eq_dec (key v) n) as [E | Hne].
  - assert (Hrest : Forall (fun w => key w <> n) c).
    { apply Forall_forall. intros w Hw Ew. apply Hnotin. rewrite E, <- Ew.
      apply in_map, Hw. }
    rewrite (@flat_map_with_inserted_other n c Hrest).
    assert (E1 : with_inserted size n v = [v]).
    { unfold with_inserted. rewrite E, Z.ltb_irrefl. reflexivity. }
    assert (E2 : with_inserted size (n + 1) v = [inserted size n; v]).
    { unfold with_inserted, inserted. rewrite E.
      destruct (Z.ltb_spec n (n + 1)); [reflexivity | lia]. }
    assert (E3 : holds (key_eq n) v = true) by (apply Z.eqb_eq; exact E).
    rewrite E1, E2. cbn [app first_match]. rewrite E3. reflexivity.
  - assert (Hn : n < size).
    { destruct Hin as [Hin | Hin]; [contradiction |].
      apply in_map_iff in Hin. destruct Hin as (w & <- & Hw).
      rewrite Forall_forall in Hrange'. apply Hrange', Hw. }
    rewrite (first_match_app _ _ (@with_inserted_no_match n v Hne Hv Hn)).
    rewrite insert_before_app, (@with_inserted_other n v Hne). f_equal.
    apply IH; [exact Hnd' | exact Hrange' |].
    destruct Hin as [Hin | Hin]; [contradiction | exact Hin].
Qed.

Lemma Insert_loop_distinct (c : list T) n : forall i (e : Env T G),
  NoDup (map key c) ->
  Forall (fun v => 0 <= key v < size) c ->
  (forall k, i <= k < i + Z.of_nat n -> In k (map key c)) ->
  container e = flat_map (with_inserted size i) c ->
  exists log,
    for_loop n i (Insert.body size) e =
    Some (tt, mkEnv (flat_map (with_inserted size (i + Z.of_nat n)) c) (generator e) log).
Proof.
  induction n as [| n IH]; intros i e Hnd Hrange Hk Hc.
  - exists (calls e). simpl. rewrite Z.add_0_r, <- Hc. destruct e; reflexivity.
  - cbn [for_loop]. unfold bind at 1. rewrite Insert_body_spec.
    match goal with |- context [for_loop n (i + 1) _ ?e1] =>
      destruct (IH (i + 1) e1 Hnd Hrange) as (log & ->) end.
    + intros k Hkr. apply Hk. lia.
    + cbn [container]. rewrite Hc. apply insert_at_target; [assumption | assumption |].
      apply Hk. lia.
    + cbn [generator]. replace (i + 1 + Z.of_nat n) with (i + Z.of_nat (S n)) by lia. eauto.
Qed.

Lemma with_inserted_zero (c : list T) :
  Forall (fun v => 0 <= key v < size) c -> flat_map (with_inserted size 0) c = c.
Proof.
  induction 1 as [| v c Hv Hc IH]; simpl; [reflexivity |].
  rewrite IH. unfold with_inserted. destruct (Z.ltb_spec (key v) 0); [lia | reflexivity].
Qed.
End InsertOnDistinctKeys.

(** X9.  On the container [FilledRandom::make(size)] returns, for any
    size from 1000 up, [Insert::run] puts the new element of key
    [size + k] immediately before the element of key [k], for each [k] in
    [[0, 1000)], and moves nothing else: the result is the container with
    each element of key below 1000 preceded by its new element. *)
Theorem FilledRandom_Insert `{Element T} `{StdRandom} {G : Type}
    (size : Z) (v : list Z) (g : G) (log : list (Call T)) :
  Element_lawful -> shuffle_contract ->
  FilledRandom.reachable v ->
  1000 <= size <= INT_MAX ->
  let c : list T := fst (FilledRandom.make size v) in
  exists e',
    Insert.run size (mkEnv c g log) = Some (tt, e') /\
    container e' = flat_map (with_inserted size 1000) c /\
    generator e' = g.
Proof.
  intros Hlaw Hsh Hv Hsize c.
  assert (Hsize' : 0 <= size <= INT_MAX) by lia.
  assert (Hptr : 0 <= size <= PTRDIFF_MAX) by (unfold INT_MAX, PTRDIFF_MAX in *; lia).
  destruct (made_keys Hlaw Hsh Hv Hsize') as (_ & Hnd & Hin & _). fold c in Hnd, Hin.
  assert (Hrange : Forall (fun x => 0 <= key x < size) c).
  { apply Forall_forall. intros x Hx. apply Hin, in_map, Hx. }
  destruct (@Insert_loop_distinct T _ G size Hlaw Hptr c (Z.to_nat 1000) 0 (mkEnv c g log)
              Hnd Hrange) as (log' & Hrun).
  - intros k Hk. apply Hin. lia.
  - cbn [container]. symmetry. apply (@with_inserted_zero T _ size c Hrange).
  - eexists. split; [exact Hrun |]. split; reflexivity.
Qed.

(** ** The policy runner and the loops *)

Lemma run_app {T G} (tests1 tests2 : list (TestPolicy T G)) size (e : Env T G) :
  run (tests1 ++ tests2) size e =
  match run tests1 size e with
  | Some (_, e') => run tests2 size e'
  | None => None
  end.
Proof.
  revert e. induction tests1 as [| Test Rest IH]; intros e; [reflexivity |].
  cbn [app run]. unfold bind. destruct (Test size e) as [[[] e1] |]; [apply IH | reflexivity].
Qed.

Lemma run_one {T G} (Test : TestPolicy T G) size (e : Env T G) :
  run [Test] size e = Test size e.
Proof. cbn [run]. unfold bind, ret. destruct (Test size e) as [[[] e1] |]; reflexivity. Qed.

(** X11.  The runner applies the policies in the order they are listed,
    each to the container the one before left: running a list followed by
    another is running the first and, when it returned, the second on what
    it left.  A fault stops the run: the policies after it are not applied
    and the run is a fault. *)
Theorem run_compose {T G : Type} (tests1 tests2 : list (TestPolicy T G))
    (size : Z) (e : Env T G) :
  run (tests1 ++ tests2) size e =
    match run tests1 size e with
    | Some (_, e') => run tests2 size e'
    | None => None
    end /\
  (run tests1 size e = None -> run (tests1 ++ tests2) size e = None) /\
  (forall Test, run [Test] size e = Test size e) /\
  run [] size e = Some (tt, e).
Proof.
  split; [apply run_app |]. split; [| split].
  - intros Hfault. rewrite run_app, Hfault. reflexivity.
  - intros Test. apply run_one.
  - reflexivity.
Qed.

Lemma for_loop_add {T G} (body : Z -> M T G unit) n m : forall i (e : Env T G),
  for_loop (n + m) i body e =
  match for_loop n i body e with
  | Some (_, e') => for_loop m (i + Z.of_nat n) body e'
  | None => None
  end.
Proof.
  induction n as [| n IH]; intros i e.
  - cbn. rewrite Z.add_0_r. reflexivity.
  - cbn [Nat.add for_loop]. unfold bind. destruct (body i e) as [[[] e1] |]; [| reflexivity].
    rewrite IH. replace (i + 1 + Z.of_nat n) with (i + Z.of_nat (S n)) by lia. reflexivity.
Qed.

Lemma for_loop_from {T G} (body : Z -> M T G unit) n :
  (forall i j e, body i e = body j e) ->
  forall i j (e : Env T G), for_loop n i body e = for_loop n j body e.
Proof.
  intros Hbody. induction n as [| n IH]; intros i j e; [reflexivity |].
  cbn [for_loop]. unfold bind. rewrite (Hbody i j).
  destruct (body j e) as [[[] e1] |]; [apply IH | reflexivity].
Qed.

(** X13.  [RandomSortedInsert::run] for [a + b] elements is the run for
    [a] elements followed, on the container and the static generator it
    leaves, by the run for [b] elements: a later run continues the random
    sequence where the earlier one stopped. *)
Theorem RandomSortedInsert_run_add `{Element T} `{StdRandom} (a b : Z) (e : Env T URBG) :
  0 <= a -> 0 <= b ->
  RandomSortedInsert.run (a + b) e =
  (RandomSortedInsert.run a ;; RandomSortedInsert.run b) e.
Proof.
  intros Ha Hb. unfold bind, RandomSortedInsert.run, for_size_t.
  rewrite Z2Nat.inj_add by assumption. rewrite for_loop_add.
  destruct (for_loop (Z.to_nat a) 0 RandomSortedInsert.body e) as [[[] e1] |]; [| reflexivity].
  apply for_loop_from. reflexivity.
Qed.

(** ** The order of the elements *)

(** X14.  The comparison every element type defines, [a < other.a], is a
    strict weak ordering, as the sorting routines require: it is
    irreflexive and transitive, being unordered both ways is having equal
    keys, and that is transitive too. *)
Theorem elt_lt_strict_weak `{Element T} (x y z : T) :
  elt_lt x x = false /\
  (elt_lt x y = true -> elt_lt y z = true -> elt_lt x z = true) /\
  (elt_lt x y = true -> elt_lt y x = false) /\
  (elt_lt x y = false /\ elt_lt y x = false <-> key x = key y) /\
  (elt_lt x y = false -> elt_lt y x = false ->
   elt_lt y z = false -> elt_lt z y = false ->
   elt_lt x z = false /\ elt_lt z x = false).
Proof.
  unfold elt_lt. rewrite !Z.ltb_lt, !Z.ltb_ge. repeat split; lia.
Qed.

(** ** Samples *)

Section BenchFacts.
Context {T G : Type}.
Variable x : Execution.
Variable unit : DurationUnit.
Variable create : CreatePolicy T.
Variable tests : list (TestPolicy T G).
Variable type : string.

Lemma trials_frame n : forall size (w w' : World G) (d d' : Z),
  trials n x create tests size (w, d) = Some (w', d') ->
  clock_calls w' = (clock_calls w + 2 * n)%nat /\ results w' = results w.
Proof.
  induction n as [| n IH]; intros size w w' d d' Hrun.
  - injection Hrun as <- <-. split; [lia | reflexivity].
  - cbn [trials] in Hrun. unfold trial in Hrun.
    destruct (create (to_size_t size) (FilledRandom_v w)) as [c v].
    destruct (run tests (to_size_t size) (mkEnv c (RandomSortedInsert_generator w) []))
      as [[[] e] |]; [| discriminate].
    apply IH in Hrun. cbn [clock_calls results] in Hrun. destruct Hrun as [Hc Hr].
    split; [lia | exact Hr].
Qed.

Lemma bench_size_frame k size (w w' : World G) :
  bench_size x unit create tests type k size w = Some w' ->
  exists y,
    0 <= y /\
    results w' = results w ++ [mkSample type (to_string size) y] /\
    clock_calls w' = (clock_calls w + 10)%nat.
Proof.
  unfold bench_size. intros Hrun.
  destruct (trials (Z.to_nat REPEAT) x create tests size (w, indeterminate x k))
    as [[w1 d1] |] eqn:Etr; [| discriminate].
  apply trials_frame in Etr. destruct Etr as [Hc Hr]. injection Hrun as <-.
  eexists. split; [| split; [unfold new_result; cbn [results]; rewrite Hr; reflexivity |]].
  - apply Z.div_pos; [apply Z.mod_pos_bound; lia | unfold REPEAT; lia].
  - unfold new_result. cbn [clock_calls]. rewrite Hc. reflexivity.
Qed.

Lemma bench_from_frame sizes : forall k (w w' : World G),
  bench_from x unit create tests type k sizes w = Some w' ->
  exists samples,
    results w' = results w ++ samples /\
    map (fun s => (series_label s, x_label s)) samples =
      map (fun size => (type, to_string size)) sizes /\
    Forall (fun s => 0 <= y_value s) samples /\
    clock_calls w' = (clock_calls w + 10 * length sizes)%nat.
Proof.
  induction sizes as [| size sizes IH]; intros k w w' Hrun.
  - injection Hrun as <-. exists []. rewrite app_nil_r. repeat split; [constructor | simpl; lia].
  - cbn [bench_from] in Hrun.
    destruct (bench_size x unit create tests type k size w) as [w1 |] eqn:E1; [| discriminate].
    apply bench_size_frame in E1. destruct E1 as (y & Hy & Hr1 & Hc1).
    apply IH in Hrun. destruct Hrun as (samples & Hr & Hlabels & Hys & Hc).
    exists (mkSample type (to_string size) y :: samples).
    split; [rewrite Hr, Hr1, <- app_assoc; reflexivity |].
    split; [cbn [map series_label x_label]; rewrite Hlabels; reflexivity |].
    split; [constructor; [exact Hy | exact Hys] |].
    cbn [length]. lia.
Qed.
End BenchFacts.

(** X12.  When [bench] returns it has recorded, after the samples already
    there, exactly one sample per size, in the order of the sizes, each
    labelled with the series name and the size in decimal and holding a
    non-negative value; it has read the clock ten times per size, twice
    per trial. *)
Theorem bench_samples {T G : Type} (x : Execution) (unit : DurationUnit)
    (create : CreatePolicy T) (tests : list (TestPolicy T G)) (type : string)
    (sizes : list Z) (w w' : World G) :
  bench x unit create tests type sizes w = Some w' ->
  exists samples,
    results w' = results w ++ samples /\
    length samples = length sizes /\
    map (fun s => (series_label s, x_label s)) samples =
      map (fun size => (type, to_string size)) sizes /\
    Forall (fun s => 0 <= y_value s) samples /\
    clock_calls w' = (clock_calls w + 10 * length sizes)%nat.
Proof.
  intros Hrun. apply bench_from_frame in Hrun.
  destruct Hrun as (samples & Hr & Hlabels & Hys & Hc).
  exists samples. repeat split; try assumption.
  apply (f_equal (@length _)) in Hlabels. rewrite !length_map in Hlabels. exact Hlabels.
Qed.

(** ** The scenario table *)

Definition never_faults {T G} (P : TestPolicy T G) : Prop :=
  forall size e, exists e', P size e = Some (tt, e').

Lemma RandomSortedInsert_returns `{Element T} `{StdRandom} n : forall i (e : Env T URBG),
  exists e', for_loop n i RandomSortedInsert.body e = Some (tt, e').
Proof.
  induction n as [| n IH]; intros i e; [exists e; reflexivity |].
  cbn [for_loop]. unfold bind at 1.
  destruct (RandomSortedInsert_body_spec i e) as (g & log & ->). apply IH.
Qed.

Lemma test_of_never_faults `{Element T} `{StdRandom} `{StdSort T} k t :
  is_Erase t = false -> never_faults (test_of k t).
Proof.
  intros Ht size e. destruct t; try discriminate; cbn [test_of].
  - exists e. reflexivity.
  - exists e. reflexivity.
  - eexists. apply push_back_loop.
  - eexists. apply push_back_loop.
  - destruct k; eexists; first [apply insert_begin_loop | apply push_front_loop].
  - destruct k; eexists; first [apply insert_begin_loop | apply push_front_loop].
  - eexists. apply Find_loop.
  - destruct (Insert_loop size (Z.to_nat 1000) 0 e) as (e' & Hrun & _). exists e'. exact Hrun.
  - destruct (RemoveErase_loop (Z.to_nat 1000) 0 e) as (log & Hrun). eexists. exact Hrun.
  - unfold Sort.run. eexists. reflexivity.
  - unfold SmartDelete.run. eexists. reflexivity.
  - apply RandomSortedInsert_returns.
Qed.

Lemma run_never_faults {T G} (l : list (TestPolicy T G)) :
  Forall never_faults l -> forall size e, exists e', run l size e = Some (tt, e').
Proof.
  induction 1 as [| P l HP Hl IH]; intros size e; [exists e; reflexivity |].
  cbn [run]. unfold bind. destruct (HP size e) as (e1 & ->). apply IH.
Qed.

Section TableFacts.
Context `{Element T} `{StdRandom} `{StdSort T}.
Hypothesis lawful : Element_lawful.
Hypothesis shuffle_permutes : shuffle_contract.
Variable x : Execution.

(** The tests of a call return on every container its create policy makes. *)
Definition safe (c : create_policy) (k : ContainerKind) (l : list test_policy)
    (size : Z) : Prop :=
  forall v g, FilledRandom.reachable v ->
    exists e', run (map (test_of k) l) (to_size_t size)
                   (mkEnv (fst (create_of c (to_size_t size) v)) g []) = Some (tt, e').

Lemma create_of_reachable c size v :
  FilledRandom.reachable v -> FilledRandom.reachable (snd (create_of (T:=T) c size v)).
Proof.
  intros Hv. destruct c; try exact Hv. cbn. constructor. exact Hv.
Qed.

Lemma scenario_ok_safe sizes s :
  scenario_ok sizes s = true -> Forall (safe (create s) (kind s) (tests s)) sizes.
Proof.
  unfold scenario_ok. rewrite andb_true_iff, forallb_forall. intros [Hsizes Hcase].
  apply Forall_forall. intros size Hsize v g Hv.
  specialize (Hsizes size Hsize). rewrite andb_true_iff, Z.leb_le, Z.leb_le in Hsizes.
  apply orb_true_iff in Hcase. destruct Hcase as [Hnone | Hcase].
  - apply run_never_faults. apply Forall_forall. intros P HP.
    apply in_map_iff in HP. destruct HP as (t & <- & Ht).
    apply test_of_never_faults. apply negb_true_iff in Hnone.
    destruct (is_Erase t) eqn:E; [| reflexivity].
    assert (Hex : existsb is_Erase (tests s) = true) by (apply existsb_exists; eauto).
    congruence.
  - rewrite !andb_true_iff, forallb_forall in Hcase. destruct Hcase as [[Honly Hfr] Hbig].
    specialize (Hbig size Hsize). rewrite Z.leb_le in Hbig.
    destruct (tests s) as [| t [| ? ?]]; try discriminate. destruct t; try discriminate.
    destruct (create s); try discriminate.
    assert (Esize : to_size_t size = size).
    { unfold to_size_t, INT_MAX in *. apply Z.mod_small. lia. }
    rewrite Esize. cbn [map test_of create_of]. unfold create_FilledRandom.
    assert (Hk : holds_keys (fst (FilledRandom.make (T:=T) size v)) 0 (Z.to_nat 1000)).
    { apply (@made_holds_keys T _ _ lawful shuffle_permutes size v (Z.to_nat 1000) Hv); lia. }
    destruct (@Erase_loop_ok T _ URBG (Z.to_nat 1000) 0
                (mkEnv (fst (FilledRandom.make size v)) g []) Hk)
      as (e' & removed & Hrun & _).
    exists e'. rewrite run_one. exact Hrun.
Qed.

Lemma trials_return c k l size n : forall (w : World URBG) d,
  safe c k l size ->
  FilledRandom.reachable (FilledRandom_v w) ->
  exists w' d',
    trials n x (create_of c) (map (test_of k) l) size (w, d) = Some (w', d') /\
    FilledRandom.reachable (FilledRandom_v w').
Proof.
  induction n as [| n IH]; intros w d Hsafe Hw; [exists w, d; auto |].
  cbn [trials]. unfold trial.
  pose proof (create_of_reachable c (to_size_t size) Hw) as Hv'.
  destruct (Hsafe (FilledRandom_v w) (RandomSortedInsert_generator w) Hw) as (e' & Hrun).
  destruct (create_of c (to_size_t size) (FilledRandom_v w)) as [cont v'].
  cbn [fst snd] in *. rewrite Hrun. apply IH; [exact Hsafe | exact Hv'].
Qed.

Lemma bench_from_returns c k l unit type sizes : forall i (w : World URBG),
  Forall (safe c k l) sizes ->
  FilledRandom.reachable (FilledRandom_v w) ->
  exists w',
    bench_from x unit (create_of c) (map (test_of k) l) type i sizes w = Some w' /\
    FilledRandom.reachable (FilledRandom_v w').
Proof.
  induction sizes as [| size sizes IH]; intros i w Hsafe Hw; [exists w; auto |].
  inversion Hsafe as [| ? ? Hs Hrest]; subst.
  cbn [bench_from]. unfold bench_size.
  destruct (@trials_return c k l size (Z.to_nat REPEAT) w (indeterminate x i) Hs Hw)
    as (w1 & d1 & -> & Hw1).
  apply IH; [exact Hrest | exact Hw1].
Qed.

(** Every static [v] is one [FilledRandom::make] can have left. *)
Definition statics_reachable (r : Run URBG) : Prop :=
  forall k, FilledRandom.reachable (fst (statics r k)).

Lemma bench_scenario_returns sizes s (r : Run URBG) :
  scenario_ok sizes s = true -> statics_reachable r ->
  exists r',
    bench_scenario x sizes s r = Some r' /\
    statics_reachable r' /\
    length (samples r') = (length (samples r) + length sizes)%nat /\
    clock r' = (clock r + 10 * length sizes)%nat /\
    graphs r' = graphs r.
Proof.
  intros Hok Hr. unfold bench_scenario.
  pose proof (Hr (kind s)) as Hv. destruct (statics r (kind s)) as [v g] eqn:Est.
  cbn [fst] in Hv. unfold bench.
  destruct (@bench_from_returns (create s) (kind s) (tests s) (duration_unit s) (series s)
              sizes 0%nat (mkWorld v g (clock r) (samples r))
              (@scenario_ok_safe sizes s Hok) Hv)
    as (w' & Hrun & Hw').
  rewrite Hrun. eexists. split; [reflexivity |].
  apply bench_from_frame in Hrun.
  destruct Hrun as (new & Hres & Hlabels & _ & Hclock). cbn [results clock_calls] in *.
  cbn [statics clock samples graphs]. split; [| split; [| split; [exact Hclock | reflexivity]]].
  - intros k'. cbn [statics]. unfold set_statics.
    destruct (same_kind (kind s) k'); [exact Hw' | apply Hr].
  - rewrite Hres, length_app. f_equal.
    apply (f_equal (@length _)) in Hlabels. rewrite !length_map in Hlabels. exact Hlabels.
Qed.

Lemma bench_scenarios_return sizes l : forall (r : Run URBG),
  forallb (scenario_ok sizes) l = true -> statics_reachable r ->
  exists r',
    bench_scenarios x sizes l r = Some r' /\
    statics_reachable r' /\
    length (samples r') = (length (samples r) + length sizes * length l)%nat /\
    clock r' = (clock r + 10 * (length sizes * length l))%nat /\
    graphs r' = graphs r.
Proof.
  induction l as [| s l IH]; intros r Hok Hr.
  - exists r. cbn [length]. rewrite Nat.mul_0_r.
    split; [reflexivity |]. split; [exact Hr |]. split; [lia |]. split; [lia | reflexivity].
  - cbn [forallb] in Hok. apply andb_true_iff in Hok. destruct Hok as [Hs Hl].
    destruct (@bench_scenario_returns sizes s r Hs Hr)
      as (r1 & Hrun1 & Hr1 & Hn1 & Hc1 & Hg1).
    destruct (IH r1 Hl Hr1) as (r' & Hrun & Hr' & Hn & Hc & Hg).
    exists r'. cbn [bench_scenarios]. rewrite Hrun1.
    split; [exact Hrun |]. split; [exact Hr' |]. cbn [length]. rewrite Nat.mul_succ_r.
    split; [lia |]. split; [lia | congruence].
Qed.

Lemma bench_groups_return type_name l : forall (r : Run URBG),
  forallb (fun grp => forallb (scenario_ok (sizes grp)) (scenarios grp)) l = true ->
  statics_reachable r ->
  exists r',
    bench_groups x type_name l r = Some r' /\
    statics_reachable r' /\
    length (samples r') = (length (samples r) + samples_of l)%nat /\
    clock r' = (clock r + 10 * samples_of l)%nat /\
    graphs r' =
      graphs r ++ map (fun grp => new_graph type_name (test_name grp) (unit_name grp)) l.
Proof.
  induction l as [| grp l IH]; intros r Hok Hr.
  - exists r. rewrite app_nil_r. cbn [samples_of fold_right].
    split; [reflexivity |]. split; [exact Hr |]. split; [lia |]. split; [lia | reflexivity].
  - cbn [forallb] in Hok. apply andb_true_iff in Hok. destruct Hok as [Hgrp Hl].
    cbn [bench_groups]. unfold bench_group.
    match goal with |- context [bench_scenarios x _ _ ?r0] =>
      destruct (@bench_scenarios_return (sizes grp) (scenarios grp) r0 Hgrp Hr)
        as (r1 & Hrun1 & Hr1 & Hn1 & Hc1 & Hg1) end.
    rewrite Hrun1. cbn [samples clock graphs] in Hn1, Hc1, Hg1.
    destruct (IH r1 Hl Hr1) as (r' & Hrun & Hr' & Hn & Hc & Hg).
    exists r'. split; [exact Hrun |]. split; [exact Hr' |]. cbn [samples_of fold_right map].
    fold (samples_of l).
    split; [lia |]. split; [lia |]. rewrite Hg, Hg1, <- app_assoc. reflexivity.
Qed.
End TableFacts.

(** X15.  A run of [bench<T>()] never faults, whatever the clock reads:
    every call of the table that uses [Erase] makes its containers with
    [FilledRandom] and sizes of at least 1000, so each scan finds its key.
    The run declares the ten graphs in order, records 320 samples (one per
    call and size), reads the clock 3200 times, and leaves each static [v]
    a value [FilledRandom::make] can start from again. *)
Theorem bench_type_returns `{Element T} `{StdRandom} `{StdSort T}
    (x : Execution) (type_name : string) (r : Run URBG) :
  Element_lawful -> shuffle_contract ->
  statics_reachable r ->
  exists r',
    bench_type x type_name r = Some r' /\
    length (samples r') = (length (samples r) + 320)%nat /\
    clock r' = (clock r + 3200)%nat /\
    graphs r' =
      graphs r ++ map (fun grp => new_graph type_name (test_name grp) (unit_name grp)) groups /\
    length (graphs r') = (length (graphs r) + 10)%nat /\
    statics_reachable r'.
Proof.
  intros Hlaw Hsh Hr.
  destruct (@bench_groups_return T _ _ _ Hlaw Hsh x type_name groups r) as
    (r' & Hrun & Hr' & Hn & Hc & Hg); [vm_compute; reflexivity | exact Hr |].
  exists r'. split; [exact Hrun |].
  change (samples_of groups) with 320%nat in Hn, Hc.
  split; [exact Hn |]. split; [exact Hc |]. split; [exact Hg |].
  split; [rewrite Hg, length_app, length_map; reflexivity | exact Hr'].
Qed.

Lemma append_inj_l (s1 s2 t : string) : (s1 ++ t = s2 ++ t)%string -> s1 = s2.
Proof.
  intros E. apply chars_inj. apply (f_equal chars) in E. rewrite !chars_append in E.
  eapply app_inv_tail. exact E.
Qed.

Lemma NoDup_map_inj {A B} (f : A -> B) (l : list A) :
  (forall a b, f a = f b -> a = b) -> NoDup l -> NoDup (map f l).
Proof.
  intros Hinj. induction 1 as [| a l Ha Hl IH]; simpl; constructor; [| exact IH].
  intros Hin. apply in_map_iff in Hin. destruct Hin as (b & Eb & Hb).
  apply Hinj in Eb. subst b. contradiction.
Qed.

Lemma groups_graph_ids type_name :
  map (fun grp => graph_id (new_graph type_name (test_name grp) (unit_name grp))) groups =
  map (fun name => (name ++ ("___" ++ tag type_name))%string) (map test_name groups).
Proof.
  rewrite map_map. apply map_ext_in. intros grp Hgrp.
  unfold new_graph. cbn [graph_id]. rewrite !tag_append.
  replace (tag (test_name grp)) with (test_name grp); [reflexivity |].
  cbn in Hgrp. repeat (destruct Hgrp as [<- | Hgrp]; [reflexivity |]). destruct Hgrp.
Qed.

(** X16.  The table is consistent: in every block the unit the graph is
    declared with ("us" or "ms") is the unit every call of the block casts
    its durations to, and the calls have distinct series names; and
    whatever the name of the element type, the ten graphs are declared
    under ten distinct identifiers. *)
Theorem groups_consistent :
  Forall (fun grp =>
            Forall (fun s => unit_label (duration_unit s) = unit_name grp) (scenarios grp) /\
            NoDup (map series (scenarios grp)))
         groups /\
  forall type_name,
    NoDup (map (fun grp => graph_id (new_graph type_name (test_name grp) (unit_name grp)))
               groups).
Proof.
  split.
  - unfold groups, per_kind.
    repeat (constructor;
            [split;
             [repeat constructor
             | cbn [map scenarios series];
               repeat (constructor; [cbn [In]; intuition discriminate |]); constructor] |]).
    constructor.
  - intros type_name. rewrite groups_graph_ids.
    apply NoDup_map_inj; [intros a b; apply append_inj_l |].
    cbn [map groups test_name].
    repeat (constructor; [cbn [In]; intuition discriminate |]). constructor.
Qed.

(** X17.  The policies cannot be combined freely: [bench] with the create
    policy [Empty] and the test policy [Erase] is a fault at the first
    trial of the first size, for every size and every clock, since no key
    is there to be found. *)
Theorem bench_Empty_Erase `{Element T} {G : Type} (x : Execution) (unit : DurationUnit)
    (type : string) (size : Z) (sizes : list Z) (w : World G) :
  trial x create_Empty [Erase.run] size (w, indeterminate x 0) = None /\
  bench x unit (create_Empty (T:=T)) [Erase.run] type (size :: sizes) w = None.
Proof.
  assert (Htrial : forall d, trial x (create_Empty (T:=T)) [Erase.run] size (w, d) = None).
  { intros d. unfold trial, create_Empty, Empty.make. cbv beta iota zeta.
    rewrite (@run_one T G (Erase.run (T:=T) (G:=G))).
    unfold Erase.run, for_size_t.
    rewrite (@Erase_loop_fault T _ G (Z.to_nat 1000) 0); [reflexivity |].
    exists 0. cbn [container]. split; [lia | constructor]. }
  split; [apply Htrial |].
  unfold bench. cbn [bench_from]. unfold bench_size.
  change (Z.to_nat REPEAT) with (S (Z.to_nat 4)). cbn [trials]. rewrite Htrial. reflexivity.
Qed.

Section ZeroStart.
Context {T G : Type}.
Variable x : Execution.
Variable unit : DurationUnit.
Variable create : CreatePolicy T.
Variable tests : list (TestPolicy T G).
Variable type : string.
Hypothesis zero_start : forall k, indeterminate x k = 0.
Hypothesis ticks_positive : 0 < ticks_per_microsecond x.
Hypothesis now_monotone : forall k, now x k <= now x (S k).
Hypothesis now_range : forall k, 0 <= now x k < 2 ^ 60.

Lemma bench_from_averages sizes : forall k (w w' : World G),
  bench_from x unit create tests type k sizes w = Some w' ->
  results w' = results w ++ averages x unit type (clock_calls w) sizes.
Proof.
  induction sizes as [| size sizes IH]; intros k w w' Hrun.
  - injection Hrun as <-. cbn. rewrite app_nil_r. reflexivity.
  - cbn [bench_from] in Hrun.
    destruct (bench_size x unit create tests type k size w) as [w1 |] eqn:E1; [| discriminate].
    pose proof (@bench_size_average T G x create tests size now_monotone now_range
                  unit type k w w1 (zero_start k) ticks_positive E1) as [Hr1 Hc1].
    apply IH in Hrun.
    rewrite Hrun, Hr1, Hc1, <- app_assoc. reflexivity.
Qed.
End ZeroStart.

(** X18.  In an execution where the storage of [duration] holds zero each
    time the variable is declared (and the clock readings never go back
    and stay below [2^60] ticks), every sample [bench] records is the
    average of the contract: the time the five trials of its size took,
    divided by five and cast to the unit. *)
Theorem bench_zero_start {T G : Type} (x : Execution) (unit : DurationUnit)
    (create : CreatePolicy T) (tests : list (TestPolicy T G)) (type : string)
    (sizes : list Z) (w w' : World G) :
  (forall k, indeterminate x k = 0) ->
  0 < ticks_per_microsecond x ->
  (forall k, now x k <= now x (S k)) ->
  (forall k, 0 <= now x k < 2 ^ 60) ->
  bench x unit create tests type sizes w = Some w' ->
  results w' = results w ++ averages x unit type (clock_calls w) sizes.
Proof.
  intros Hzero Hticks Hmono Hrange Hrun.
  eapply bench_from_averages; eassumption.
Qed.

(** ** The further statements at concrete inputs *)

Lemma thousand_keys_distinct : NoDup (map key (container thousand_keys)).
Proof.
  assert (E : map key (container thousand_keys) = 5000 :: zrange 0 1000).
  { unfold thousand_keys. cbn [container map]. rewrite map_map.
    change (key (brace_init (T:=Small) 5000)) with 5000. f_equal. }
  rewrite E. constructor; [| apply zrange_NoDup].
  intros Hin. apply zrange_In in Hin. lia.
Defined.

Lemma thousand_keys_holds : holds_keys (container thousand_keys) 0 1000.
Proof.
  intros k Hk. exists (brace_init k). split; [| reflexivity].
  right. apply in_map, zrange_In. lia.
Defined.

Lemma Erase_RemoveErase_agree_witness :
  NoDup (map key (container thousand_keys)) /\
  holds_keys (container thousand_keys) 0 1000 /\
  exists e1 e2,
    Erase.run 1001 thousand_keys = Some (tt, e1) /\
    RemoveErase.run 1001 thousand_keys = Some (tt, e2) /\
    container e1 = container e2 /\
    container e1 = filter (fun v => negb (erased_key (key v))) (container thousand_keys) /\
    generator e1 = generator e2.
Proof.
  split; [exact thousand_keys_distinct |]. split; [exact thousand_keys_holds |].
  exact (@Erase_RemoveErase_agree Small _ unit 1001 thousand_keys
           thousand_keys_distinct thousand_keys_holds).
Defined.

Lemma int_range_1000 : 1000 <= 1000 <= INT_MAX.
Proof. vm_compute. split; discriminate. Defined.

Lemma int_range_1000' : 0 <= 1000 <= INT_MAX.
Proof. vm_compute. split; discriminate. Defined.

Lemma FilledRandom_Erase_witness :
  Element_lawful (T:=Small) /\ shuffle_contract /\ FilledRandom.reachable [] /\
  1000 <= 1000 <= INT_MAX /\
  (let c : list Small := fst (FilledRandom.make 1000 []) in
   exists e',
     Erase.run 1000 (mkEnv c tt []) = Some (tt, e') /\
     container e' = filter (fun x => negb (erased_key (key x))) c /\
     generator e' = tt /\
     Z.of_nat (length (container e')) = 1000 - 1000 /\
     (forall k, In k (map key (container e')) <-> 1000 <= k < 1000)).
Proof.
  split; [exact Small_lawful |]. split; [exact LibstdcxxFacts.shuffle_meets_contract |].
  split; [constructor |]. split; [exact int_range_1000 |].
  exact (@FilledRandom_Erase Small _ libstdcxx unit 1000 [] tt [] Small_lawful
           LibstdcxxFacts.shuffle_meets_contract FilledRandom.reachable_start int_range_1000).
Defined.

Lemma FilledRandom_Find_witness :
  Element_lawful (T:=Small) /\ shuffle_contract /\ FilledRandom.reachable [] /\
  0 <= 1000 <= INT_MAX /\
  (let c : list Small := fst (FilledRandom.make 1000 []) in
   Find.run 1000 (mkEnv c tt []) =
     Some (tt, mkEnv c tt (map (scan_call c) (zrange 0 (Z.to_nat 1000)))) /\
   forall i, 0 <= i < 1000 ->
     exists it x,
       scan_call c i = call_find_if (key_eq i) it /\
       (it < length c)%nat /\
       nth_error c it = Some x /\ key x = i).
Proof.
  split; [exact Small_lawful |]. split; [exact LibstdcxxFacts.shuffle_meets_contract |].
  split; [constructor |]. split; [exact int_range_1000' |].
  exact (@FilledRandom_Find Small _ libstdcxx unit 1000 [] tt Small_lawful
           LibstdcxxFacts.shuffle_meets_contract FilledRandom.reachable_start int_range_1000').
Defined.

Lemma FilledRandom_Insert_witness :
  Element_lawful (T:=Small) /\ shuffle_contract /\ FilledRandom.reachable [] /\
  1000 <= 1000 <= INT_MAX /\
  (let c : list Small := fst (FilledRandom.make 1000 []) in
   exists e',
     Insert.run 1000 (mkEnv c tt []) = Some (tt, e') /\
     container e' = flat_map (with_inserted 1000 1000) c /\
     generator e' = tt).
Proof.
  split; [exact Small_lawful |]. split; [exact LibstdcxxFacts.shuffle_meets_contract |].
  split; [constructor |]. split; [exact int_range_1000 |].
  exact (@FilledRandom_Insert Small _ libstdcxx unit 1000 [] tt [] Small_lawful
           LibstdcxxFacts.shuffle_meets_contract FilledRandom.reachable_start int_range_1000).
Defined.

Lemma FilledRandom_Sort_witness :
  Element_lawful (T:=Small) /\ shuffle_contract /\
  sort_contract (T:=Small) std_sort /\ sort_contract (T:=Small) list_sort /\
  FilledRandom.reachable [] /\ 0 <= 1000 <= INT_MAX /\
  exists e',
    Sort.run std_list 1000 (mkEnv (fst (FilledRandom.make (T:=Small) 1000 [])) tt [])
      = Some (tt, e') /\
    map key (container e') = zrange 0 (Z.to_nat 1000) /\
    generator e' = tt.
Proof.
  split; [exact Small_lawful |]. split; [exact LibstdcxxFacts.shuffle_meets_contract |].
  split; [exact insertion_sort_meets_contract |].
  split; [exact insertion_sort_meets_contract |].
  split; [constructor |]. split; [exact int_range_1000' |].
  exact (@FilledRandom_Sort Small _ libstdcxx insertion_StdSort unit std_list 1000 [] tt []
           Small_lawful LibstdcxxFacts.shuffle_meets_contract
           insertion_sort_meets_contract insertion_sort_meets_contract
           FilledRandom.reachable_start int_range_1000').
Defined.

Lemma stale_bench_returns :
  bench (T:=Small) (G:=unit) stale_execution milliseconds create_Empty [NoOp.run]
        "vector" [100000; 200000] (mkWorld [] tt 0 []) =
  Some (mkWorld [] tt 20 [mkSample "vector" "100000" 1; mkSample "vector" "200000" 2]).
Proof. vm_compute. reflexivity. Defined.

Lemma bench_samples_witness :
  bench (T:=Small) (G:=unit) stale_execution milliseconds create_Empty [NoOp.run]
        "vector" [100000; 200000] (mkWorld [] tt 0 []) =
  Some (mkWorld [] tt 20 [mkSample "vector" "100000" 1; mkSample "vector" "200000" 2]) /\
  exists samples,
    [mkSample "vector" "100000" 1; mkSample "vector" "200000" 2] = [] ++ samples /\
    length samples = 2%nat /\
    map (fun s => (series_label s, x_label s)) samples =
      map (fun size => ("vector"%string, to_string size)) [100000; 200000] /\
    Forall (fun s => 0 <= y_value s) samples /\
    20%nat = (0 + 10 * 2)%nat.
Proof.
  split; [exact stale_bench_returns |].
  exact (@bench_samples Small unit stale_execution milliseconds create_Empty [NoOp.run]
           "vector" [100000; 200000] (mkWorld [] tt 0 [])
           (mkWorld [] tt 20 [mkSample "vector" "100000" 1; mkSample "vector" "200000" 2])
           stale_bench_returns).
Defined.

Lemma RandomSortedInsert_run_add_witness :
  0 <= 2 /\ 0 <= 1 /\
  RandomSortedInsert.run (2 + 1) empty_vector =
  (RandomSortedInsert.run 2 ;; RandomSortedInsert.run 1) empty_vector.
Proof.
  assert (H2 : 0 <= 2) by (vm_compute; discriminate).
  assert (H1 : 0 <= 1) by (vm_compute; discriminate).
  split; [exact H2 |]. split; [exact H1 |].
  exact (@RandomSortedInsert_run_add Small _ libstdcxx 2 1 empty_vector H2 H1).
Defined.

Lemma fresh_run_reachable : statics_reachable (H0:=libstdcxx) fresh_run.
Proof. intros k. constructor. Defined.

Lemma bench_type_returns_witness :
  Element_lawful (T:=Small) /\ shuffle_contract /\ statics_reachable fresh_run /\
  exists r',
    bench_type (T:=Small) stale_execution "Small" fresh_run = Some r' /\
    length (samples r') = (length (samples fresh_run) + 320)%nat /\
    clock r' = (clock fresh_run + 3200)%nat /\
    graphs r' =
      graphs fresh_run ++
      map (fun grp => new_graph "Small" (test_name grp) (unit_name grp)) groups /\
    length (graphs r') = (length (graphs fresh_run) + 10)%nat /\
    statics_reachable r'.
Proof.
  split; [exact Small_lawful |]. split; [exact LibstdcxxFacts.shuffle_meets_contract |].
  split; [exact fresh_run_reachable |].
  exact (@bench_type_returns Small _ libstdcxx insertion_StdSort stale_execution "Small"
           fresh_run Small_lawful LibstdcxxFacts.shuffle_meets_contract fresh_run_reachable).
Defined.

Lemma steady_now_monotone k : now steady_execution k <= now steady_execution (S k).
Proof. cbn [now steady_execution]. lia. Defined.

Lemma steady_now_range k : 0 <= now steady_execution k < 2 ^ 60.
Proof. cbn [now steady_execution]. lia. Defined.

Lemma steady_bench_returns :
  bench (T:=Small) (G:=unit) steady_execution milliseconds create_Empty [NoOp.run]
        "vector" [100000; 200000] (mkWorld [] tt 0 []) =
  Some (mkWorld [] tt 20 [mkSample "vector" "100000" 1; mkSample "vector" "200000" 1]).
Proof. vm_compute. reflexivity. Defined.

Lemma bench_zero_start_witness :
  (forall k, indeterminate steady_execution k = 0) /\
  0 < ticks_per_microsecond steady_execution /\
  (forall k, now steady_execution k <= now steady_execution (S k)) /\
  (forall k, 0 <= now steady_execution k < 2 ^ 60) /\
  [mkSample "vector" "100000" 1; mkSample "vector" "200000" 1] =
  [] ++ averages steady_execution milliseconds "vector" 0 [100000; 200000].
Proof.
  assert (Hticks : 0 < ticks_per_microsecond steady_execution) by reflexivity.
  split; [intros k; reflexivity |]. split; [exact Hticks |].
  split; [exact steady_now_monotone |]. split; [exact steady_now_range |].
  exact (@bench_zero_start Small unit steady_execution milliseconds create_Empty [NoOp.run]
           "vector" [100000; 200000] (mkWorld [] tt 0 [])
           (mkWorld [] tt 20 [mkSample "vector" "100000" 1; mkSample "vector" "200000" 1])
           (fun k => eq_refl) Hticks steady_now_monotone steady_now_range
           steady_bench_returns).
Defined.
